(** * lightning-kitti: the KITTI dataset class of [train.py]

    A shallow embedding of the label remapper ([KITTI.encode_segmap]) and of
    the train/validation split ([KITTI.__init__]), with the properties the
    specification states about them.

    NumPy arrays are mutable objects: they live in a store and are passed
    by reference.  Pixels are mathematical integers (an integer array wide
    enough for every value that is written; with the default labels these
    are 0..18 and 250, which fit the 8-bit arrays of [__getitem__]). *)

From Stdlib Require Import Ascii String.
From stdpp Require Import numbers strings list fin_maps gmap pretty sorting.

Local Open Scope Z_scope.

(** * Part I: the program *)

(** ** NumPy arrays and the object store *)

(** A 2-D integer array: rows of pixels. *)
Abbreviation ndarray := (list (list Z)).
(** A boolean array, as produced by [mask == c] and [mask > c]. *)
Abbreviation boolarray := (list (list bool)).

(** [a == c] *)
Definition np_eq (a : ndarray) (c : Z) : boolarray :=
  (λ row : list Z, (λ v, bool_decide (v = c)) <$> row) <$> a.

(** [a > c] *)
Definition np_gt (a : ndarray) (c : Z) : boolarray :=
  (λ row : list Z, (λ v, bool_decide (c < v)) <$> row) <$> a.

(** The contents of [a] after [a[b] = x], for a boolean array [b] of the
    shape of [a]. *)
Definition np_setitem (a : ndarray) (b : boolarray) (x : Z) : ndarray :=
  zip_with (zip_with (λ v (sel : bool), if sel then x else v)) a b.

(** References to array objects, and the store they point into. *)
Abbreviation ref := nat (only parsing).
Abbreviation store := (gmap nat ndarray).

(** Statements: they read and update the store, and fail (an exception)
    with [None]. *)
Definition M (A : Type) : Type := store → option (A * store).

Definition raise {A} : M A := λ _, None.

#[global] Instance M_ret : MRet M := λ A (x : A) h, Some (x, h).
#[global] Instance M_bind : MBind M := λ A B (k : A → M B) (c : M A) h,
  match c h with Some (x, h') => k x h' | None => None end.

(** The array a reference points to. *)
Definition deref (r : ref) : M ndarray :=
  λ h, match h !! r with Some a => Some (a, h) | None => None end.

(** Overwrite the contents of the object at [r]. *)
Definition assign (r : ref) (a : ndarray) : M unit :=
  λ h, Some (tt, <[r:=a]> h).

(** [d[k]] on a dict: [KeyError] when the key is absent. *)
Definition getitem (d : gmap Z Z) (k : Z) : M Z :=
  match d !! k with Some x => mret x | None => raise end.

(** [for x in xs: body x] *)
Fixpoint for_each {A} (xs : list A) (body : A → M unit) : M unit :=
  match xs with
  | [] => mret tt
  | x :: xs' => (body x ;; for_each xs' body)
  end.

(** ** Python built-ins used by [__init__] *)

(** [range(n)] as integers. *)
Definition py_range (n : nat) : list Z := Z.of_nat <$> seq 0 n.

(** [dict(pairs)]: a later pair overrides an earlier one with the same key. *)
Definition py_dict (kvs : list (Z * Z)) : gmap Z Z :=
  foldl (λ d kv, <[kv.1:=kv.2]> d) ∅ kvs.

(** [dict(zip(valid_labels, range(len(valid_labels))))] *)
Definition class_map_of (valids : list Z) : gmap Z Z :=
  py_dict (zip valids (py_range (length valids))).

(** ** The libraries [__init__] calls *)

(** The [random], [glob] and [natsort] functions that [__init__] uses.
    A generator object carries its own state; [sample] fails ([ValueError])
    with [None]. *)
Class PyLibs : Type := {
  rng : Type;
  (** [random.Random(seed)]: a new generator object. *)
  Random : Z → rng;
  (** [g.sample(population, k)]: the sample and the generator afterwards. *)
  sample : rng → list nat → nat → option (list nat * rng);
  (** [natsort.natsorted] *)
  natsorted : list string → list string
}.

(** The process: the files that [glob.glob] finds for a pattern, and the
    hidden generator behind the module-level functions of [random]. *)
Record World `{PyLibs} : Type := mkWorld {
  glob : string → list string;
  global_rng : rng
}.

Fixpoint ends_with_slash (s : string) : bool :=
  match s with
  | EmptyString => false
  | String c EmptyString => bool_decide (c = "/"%char)
  | String _ s' => ends_with_slash s'
  end.

(** [os.path.join(a, b)] on POSIX. *)
Definition path_join (a b : string) : string :=
  match b with
  | String "/"%char _ => b
  | _ => if bool_decide (a = EmptyString) || ends_with_slash a
         then String.append a b
         else String.append a (String "/"%char b)
  end.

(** ** The dataset class *)

Definition DEFAULT_VOID_LABELS : list Z :=
  [0; 1; 2; 3; 4; 5; 6; 9; 10; 14; 15; 16; 18; 29; 30; -1].
Definition DEFAULT_VALID_LABELS : list Z :=
  [7; 8; 11; 12; 13; 17; 19; 20; 21; 22; 23; 24; 25; 26; 27; 28; 31; 32; 33].

(** The attributes [__init__] sets (the pluggable image transform apart). *)
Record KITTI : Type := mkKITTI {
  img_size : nat * nat;
  void_labels : list Z;
  valid_labels : list Z;
  ignore_index : Z;
  class_map : gmap Z Z;
  split : string;
  data_path : string;
  img_path : string;
  mask_path : string;
  img_list : list string;
  mask_list : list string
}.

(** [KITTI.get_filenames] *)
Definition get_filenames `{PyLibs} (w : World) (path : string) : list string :=
  natsorted (glob w (String.append path "/*")).

(** The indices [idxs] that [__init__] keeps for [split] among [n_items]
    files (lines 67 to 70). *)
Definition split_idxs `{PyLibs} (split : string) (n_items : nat)
    : option (list nat) :=
  let random_inst := Random 12345 in
  '(idxs, _) ← sample random_inst (seq 0 n_items) (n_items `div` 5)%nat;
  Some (if bool_decide (split = "train")
        then filter (λ idx, idx ∉ idxs) (seq 0 n_items)
        else idxs).

(** [KITTI.__init__]; [None] is an exception ([ValueError] of [sample],
    [IndexError] of a list). *)
Definition KITTI_init `{PyLibs} (w : World) (data_path split : string)
    (img_size : nat * nat) (void_labels valid_labels : list Z) : option KITTI :=
  let class_map := class_map_of valid_labels in
  let img_path := path_join data_path "imagesTr" in
  let mask_path := path_join data_path "labelsTs" in
  let img_list := get_filenames w img_path in
  let mask_list := get_filenames w mask_path in
  let n_items := length img_list in
  idxs ← split_idxs split n_items;
  img_list' ← mapM (λ i, img_list !! i) idxs;
  mask_list' ← mapM (λ i, mask_list !! i) idxs;
  Some {| img_size := img_size;
          void_labels := void_labels;
          valid_labels := valid_labels;
          ignore_index := 250;
          class_map := class_map;
          split := split;
          data_path := data_path;
          img_path := img_path;
          mask_path := mask_path;
          img_list := img_list';
          mask_list := mask_list' |}.

(** [KITTI.__len__] *)
Definition KITTI_len (self : KITTI) : nat := length (img_list self).

(** [mask[mask == c] = x] on the array object [mask]. *)
Definition setitem_eq (mask : ref) (c x : Z) : M unit :=
  (a ← deref mask; assign mask (np_setitem a (np_eq a c) x)).

(** [mask[mask > c] = x] on the array object [mask]. *)
Definition setitem_gt (mask : ref) (c x : Z) : M unit :=
  (a ← deref mask; assign mask (np_setitem a (np_gt a c) x)).

(** [KITTI.encode_segmap]: three passes over the array object [mask],
    which is then returned. *)
Definition encode_segmap (self : KITTI) (mask : ref) : M ref :=
  (for_each (void_labels self) (λ voidc,
     setitem_eq mask voidc (ignore_index self)) ;;
   for_each (valid_labels self) (λ validc,
     x ← getitem (class_map self) validc;
     setitem_eq mask validc x) ;;
   setitem_gt mask 18 (ignore_index self) ;;
   mret mask).

(** * Part II: what the program computes *)

(** ** Pixels, masks and objects *)

(** The first two statements of [encode_segmap]: the void-label loop and
    the valid-label loop, before the final pass. *)
Definition label_passes (self : KITTI) (mask : ref) : M unit :=
  for_each (void_labels self) (λ voidc,
    setitem_eq mask voidc (ignore_index self)) ;;
  for_each (valid_labels self) (λ validc,
    x ← getitem (class_map self) validc;
    setitem_eq mask validc x).

(** The three passes as seen from a pixel holding [v]. *)
Definition void_px (ign : Z) (voids : list Z) (v : Z) : Z :=
  foldl (λ v voidc, if bool_decide (v = voidc) then ign else v) v voids.

Definition valid_px (cm : gmap Z Z) (valids : list Z) (v : Z) : Z :=
  foldl (λ v validc, if bool_decide (v = validc) then cm !!! validc else v)
        v valids.

Definition extra_px (ign : Z) (v : Z) : Z :=
  if bool_decide (18 < v) then ign else v.

(** A pixel after the two loops. *)
Definition label_px (self : KITTI) (v : Z) : Z :=
  valid_px (class_map self) (valid_labels self)
    (void_px (ignore_index self) (void_labels self) v).

Definition encode_px (self : KITTI) (v : Z) : Z :=
  extra_px (ignore_index self)
    (valid_px (class_map self) (valid_labels self)
       (void_px (ignore_index self) (void_labels self) v)).

(** Apply [f] to every pixel. *)
Definition px_map (f : Z → Z) (a : ndarray) : ndarray :=
  (λ row : list Z, f <$> row) <$> a.

(** The pixel in row [i], column [j]. *)
Definition px_at (a : ndarray) (i j : nat) : option Z :=
  row ← a !! i; row !! j.

(** Every pixel of the array satisfies [P]. *)
Definition all_px (P : Z → Prop) (a : ndarray) : Prop :=
  Forall (Forall P) a.

(** The training label space: a class index below 19, or the ignore
    index. *)
Definition in_label_space (v : Z) : Prop := 0 ≤ v < 19 ∨ v = 250.

(** What [__init__] establishes about the label attributes. *)
Definition constructed (self : KITTI) (voids valids : list Z) : Prop :=
  void_labels self = voids ∧
  valid_labels self = valids ∧
  ignore_index self = 250 ∧
  class_map self = class_map_of valids.

(** An object with the label attributes as [__init__] sets them, for a
    data directory without files. *)
Definition kitti_with (voids valids : list Z) : KITTI :=
  {| img_size := (1242%nat, 376%nat);
     void_labels := voids;
     valid_labels := valids;
     ignore_index := 250;
     class_map := class_map_of valids;
     split := "valid";
     data_path := "";
     img_path := "imagesTr";
     mask_path := "labelsTs";
     img_list := [];
     mask_list := [] |}.

(** The object [KITTI(data_path, split)] of an empty data directory: the
    default labels. *)
Definition kitti_default : KITTI :=
  kitti_with DEFAULT_VOID_LABELS DEFAULT_VALID_LABELS.

(** ** The contract of [random] and a stand-in for the libraries *)

(** What the [random] documentation promises of [sample]: [k] elements
    from [k] different positions of the population, when it has that
    many. *)
Definition sample_contract `{PyLibs} : Prop :=
  ∀ (g : rng) (population : list nat) (k : nat),
    (k ≤ length population)%nat →
    ∃ l g', sample g population k = Some (l, g') ∧
            length l = k ∧ l ⊆+ population.

(** A stand-in for the libraries: a counter as generator, and a sample
    that takes the first [k] elements of the population rotated by the
    state. *)
Definition toy_sample (g : Z) (population : list nat) (k : nat)
    : option (list nat * Z) :=
  if decide (k ≤ length population)%nat
  then Some (take k (rotate (Z.to_nat g) population), g + 1)
  else None.

Definition toy_libs : PyLibs :=
  {| rng := Z; Random := λ seed, seed; sample := toy_sample;
     natsorted := λ l, l |}.

(** A data directory with a hundred images and a hundred masks. *)
Definition toy_world : @World toy_libs :=
  @mkWorld toy_libs
    (λ pattern, (λ i : nat, String.append pattern (pretty i)) <$> seq 0 100)
    0.

(** ** The sample loader and the data module *)

(** Lift a Python value that may raise into a statement. *)
Definition lift {A} (o : option A) : M A :=
  λ h, match o with Some x => Some (x, h) | None => None end.

(** [np.array(...)] of a mask: a new array object with these contents. *)
Definition np_array (a : ndarray) : M nat :=
  λ h, let r := fresh (dom h) in Some (r, <[r:=a]> h).

(** [l[i]] on a list: a negative index counts from the end, and
    [IndexError] is [None]. *)
Definition py_index {A} (l : list A) (i : Z) : option A :=
  if bool_decide (0 ≤ i) then l !! Z.to_nat i
  else if bool_decide (- Z.of_nat (length l) ≤ i)
       then l !! Z.to_nat (Z.of_nat (length l) + i)
       else None.

(** The PIL and NumPy functions that [__getitem__] calls on images.
    [tensor] is the image data: the array of the colour image, and what a
    transform makes of it.  [Image_open] fails with [None] when the file
    cannot be read; [Image_resize] is [resize] with the default filter. *)
Class PILLib : Type := {
  Image : Type;
  tensor : Type;
  Image_open : string → option Image;
  Image_convert : Image → string → Image;
  Image_resize : Image → nat * nat → Image;
  np_array_img : Image → tensor;
  np_array_mask : Image → ndarray
}.

(** [KITTI.__getitem__]; the [transform] attribute, which the record
    leaves out, is an argument. *)
Definition KITTI_getitem `{PILLib} (self : KITTI)
    (transform : option (tensor → tensor)) (idx : Z) : M (tensor * nat) :=
  img_file ← lift (py_index (img_list self) idx);
  img ← lift (Image_open img_file);
  let img := Image_resize img (img_size self) in
  let img := np_array_img img in
  mask_file ← lift (py_index (mask_list self) idx);
  mask ← lift (Image_open mask_file);
  let mask := Image_convert mask "L" in
  let mask := Image_resize mask (img_size self) in
  mask ← np_array (np_array_mask mask);
  mask ← encode_segmap self mask;
  let img := match transform with Some t => t img | None => img end in
  mret (img, mask).

(** [KittiDataModule.setup]: the training set and the validation set of
    one data directory, with the default size and labels. *)
Definition KittiDataModule_setup `{PyLibs} (w : World) (data_path : string)
    : option (KITTI * KITTI) :=
  trainset ← KITTI_init w data_path "train" (1242%nat, 376%nat)
                DEFAULT_VOID_LABELS DEFAULT_VALID_LABELS;
  validset ← KITTI_init w data_path "valid" (1242%nat, 376%nat)
                DEFAULT_VOID_LABELS DEFAULT_VALID_LABELS;
  Some (trainset, validset).

(** The image files paired with their mask files. *)
Definition file_pairs (self : KITTI) : list (string * string) :=
  zip (img_list self) (mask_list self).

(** The numbers of rows and columns of an array, row by row. *)
Definition shape (a : ndarray) : list nat := length <$> a.

(** A stand-in for PIL: an image is an array of integers, every file but
    ["missing.png"] holds the same picture, resizing and conversion keep the
    picture, and a mask array has each pixel reduced to eight bits. *)
Definition toy_pil : PILLib :=
  {| Image := ndarray;
     tensor := ndarray;
     Image_open := λ file,
       if bool_decide (file = "missing.png") then None
       else Some [[7; 26; 300]; [0; 33; 12]];
     Image_convert := λ im _, im;
     Image_resize := λ im _, im;
     np_array_img := λ im, im;
     np_array_mask := λ im, px_map (λ v, v `mod` 256) im |}.

(** A dataset object with two file pairs and given labels. *)
Definition kitti_two (voids valids : list Z) : KITTI :=
  {| img_size := (1242%nat, 376%nat);
     void_labels := voids;
     valid_labels := valids;
     ignore_index := 250;
     class_map := class_map_of valids;
     split := "valid";
     data_path := "data_semantics";
     img_path := "data_semantics/imagesTr";
     mask_path := "data_semantics/labelsTs";
     img_list := ["img1.png"; "img2.png"];
     mask_list := ["mask1.png"; "mask2.png"] |}.

(** A data directory with seven images and only five masks. *)
Definition toy_world_short : @World toy_libs :=
  @mkWorld toy_libs
    (λ pattern,
       (λ i : nat, String.append pattern (pretty i)) <$>
       seq 0 (if bool_decide (pattern = "data_semantics/imagesTr/*")
              then 7 else 5))
    0.

(** A data directory with three images and three masks. *)
Definition toy_world_small : @World toy_libs :=
  @mkWorld toy_libs
    (λ pattern, (λ i : nat, String.append pattern (pretty i)) <$> seq 0 3)
    0.

(** The training set that [__init__] builds for the small directory. *)
Definition toy_trainset : KITTI :=
  default kitti_default
    (@KITTI_init toy_libs toy_world_small "data_semantics" "train"
       (1242%nat, 376%nat) DEFAULT_VOID_LABELS DEFAULT_VALID_LABELS).

(** * Part III: lemmas *)

(** ** Arrays and the store *)

Lemma zip_with_fmap_self {A B C} (f : A → B → C) (g : A → B) (l : list A) :
  zip_with f l (g <$> l) = (λ x, f x (g x)) <$> l.
Proof. induction l as [|x l IH]; csimpl; [done | by f_equal]. Qed.

Lemma np_setitem_eq_px (a : ndarray) (c x : Z) :
  np_setitem a (np_eq a c) x =
  px_map (λ v, if bool_decide (v = c) then x else v) a.
Proof.
  unfold np_setitem, np_eq, px_map.
  rewrite zip_with_fmap_self. apply list_fmap_ext; intros _ row _.
  by rewrite zip_with_fmap_self.
Qed.

Lemma np_setitem_gt_px (a : ndarray) (c x : Z) :
  np_setitem a (np_gt a c) x =
  px_map (λ v, if bool_decide (c < v) then x else v) a.
Proof.
  unfold np_setitem, np_gt, px_map.
  rewrite zip_with_fmap_self. apply list_fmap_ext; intros _ row _.
  by rewrite zip_with_fmap_self.
Qed.

Lemma px_map_id (f : Z → Z) (a : ndarray) :
  (∀ v, f v = v) → px_map f a = a.
Proof.
  intros Hf. unfold px_map. rewrite <- (list_fmap_id a) at 2.
  apply list_fmap_ext; intros _ row _. rewrite <- (list_fmap_id row) at 2.
  apply list_fmap_ext; intros; apply Hf.
Qed.

Lemma px_map_compose (f g : Z → Z) (a : ndarray) :
  px_map g (px_map f a) = px_map (g ∘ f) a.
Proof.
  unfold px_map. rewrite <- list_fmap_compose.
  apply list_fmap_ext; intros _ row _; simpl. by rewrite <- list_fmap_compose.
Qed.

Lemma px_map_ext (f g : Z → Z) (a : ndarray) :
  (∀ v, f v = g v) → px_map f a = px_map g a.
Proof.
  intros Hfg. unfold px_map. apply list_fmap_ext; intros _ row _.
  apply list_fmap_ext; intros; apply Hfg.
Qed.

Lemma all_px_map (P : Z → Prop) (f : Z → Z) (a : ndarray) :
  all_px P (px_map f a) ↔ all_px (P ∘ f) a.
Proof.
  unfold all_px, px_map. rewrite Forall_fmap. apply Forall_iff; intros row.
  simpl. by rewrite Forall_fmap.
Qed.

Lemma px_map_inj_on (f g : Z → Z) (a : ndarray) :
  px_map f a = px_map g a ↔ all_px (λ v, f v = g v) a.
Proof.
  unfold px_map, all_px. rewrite <- Forall_fmap_ext.
  apply Forall_iff; intros row. by rewrite Forall_fmap_ext.
Qed.

Lemma px_at_map f a i j : px_at (px_map f a) i j = f <$> px_at a i j.
Proof.
  unfold px_at, px_map. rewrite list_lookup_fmap.
  destruct (a !! i) as [row|]; simpl; [|done]. by rewrite list_lookup_fmap.
Qed.

Section store.
Context (mask : ref).
Implicit Types (h : store) (a : ndarray).

Lemma setitem_eq_run h a c x :
  h !! mask = Some a →
  setitem_eq mask c x h =
  Some (tt, <[mask := px_map (λ v, if bool_decide (v = c) then x else v) a]> h).
Proof.
  intros Ha. unfold setitem_eq, mbind, M_bind, deref, assign.
  by rewrite Ha, np_setitem_eq_px.
Qed.

Lemma setitem_gt_run h a c x :
  h !! mask = Some a →
  setitem_gt mask c x h =
  Some (tt, <[mask := px_map (λ v, if bool_decide (c < v) then x else v) a]> h).
Proof.
  intros Ha. unfold setitem_gt, mbind, M_bind, deref, assign.
  by rewrite Ha, np_setitem_gt_px.
Qed.

Lemma void_loop_run ign voids h a :
  h !! mask = Some a →
  for_each voids (λ voidc, setitem_eq mask voidc ign) h =
  Some (tt, <[mask := px_map (void_px ign voids) a]> h).
Proof.
  revert h a. induction voids as [|c voids IH]; intros h a Ha; simpl.
  - unfold mret, M_ret. by rewrite px_map_id, insert_id.
  - unfold mbind, M_bind at 1. rewrite (setitem_eq_run _ _ _ _ Ha).
    erewrite IH by apply lookup_insert_eq.
    by rewrite insert_insert_eq, px_map_compose.
Qed.

Lemma valid_loop_run cm valids h a :
  h !! mask = Some a →
  Forall (λ c, is_Some (cm !! c)) valids →
  for_each valids (λ validc,
    x ← getitem cm validc; setitem_eq mask validc x) h =
  Some (tt, <[mask := px_map (valid_px cm valids) a]> h).
Proof.
  intros Ha Hcm. revert h a Ha.
  induction Hcm as [|c valids [x Hx] _ IH]; intros h a Ha; simpl.
  - unfold mret, M_ret. by rewrite px_map_id, insert_id.
  - unfold mbind at 1, M_bind at 1. unfold mbind at 1, M_bind at 1.
    unfold getitem. rewrite Hx. unfold mret at 1, M_ret at 1.
    rewrite (setitem_eq_run _ _ _ _ Ha).
    erewrite IH by apply lookup_insert_eq.
    rewrite insert_insert_eq, px_map_compose. do 3 f_equal.
    apply px_map_ext; intros v; simpl.
    by rewrite (lookup_total_correct _ _ _ Hx).
Qed.
End store.

(** ** The class map built by [__init__] *)

Lemma py_range_S n : py_range (S n) = py_range n ++ [Z.of_nat n].
Proof. unfold py_range. by rewrite seq_S, fmap_app. Qed.

Lemma length_py_range n : length (py_range n) = n.
Proof. unfold py_range. by rewrite length_fmap, length_seq. Qed.

(** The last occurrence of a label decides its class. *)
Lemma class_map_of_snoc valids c :
  class_map_of (valids ++ [c]) =
  <[c := Z.of_nat (length valids)]> (class_map_of valids).
Proof.
  unfold class_map_of, py_dict.
  rewrite length_app, Nat.add_1_r, py_range_S.
  rewrite zip_with_app by (by rewrite length_py_range).
  by rewrite foldl_app.
Qed.

Lemma class_map_of_Some valids c x :
  class_map_of valids !! c = Some x →
  ∃ i : nat, x = Z.of_nat i ∧ valids !! i = Some c.
Proof.
  induction valids as [|c' valids IH] using rev_ind.
  - unfold class_map_of, py_dict; simpl. by rewrite lookup_empty.
  - rewrite class_map_of_snoc, lookup_insert. case_decide as Hc.
    + intros [= <-]. subst c'. exists (length valids). split; [done|].
      by rewrite lookup_app_r, Nat.sub_diag.
    + intros (i & -> & Hi)%IH. exists i. split; [done|].
      by apply lookup_app_l_Some.
Qed.

Lemma class_map_of_elem valids c :
  c ∈ valids → is_Some (class_map_of valids !! c).
Proof.
  induction valids as [|c' valids IH] using rev_ind.
  - by intros ?%elem_of_nil.
  - rewrite class_map_of_snoc, lookup_insert. case_decide; [by eauto|].
    rewrite elem_of_app, list_elem_of_singleton. intros [?|?]; [auto|congruence].
Qed.

Lemma class_map_of_NoDup valids (i : nat) c :
  NoDup valids → valids !! i = Some c →
  class_map_of valids !! c = Some (Z.of_nat i).
Proof.
  revert i. induction valids as [|c' valids IH] using rev_ind; [done|].
  intros i [Hnd [Hc' _]]%NoDup_app Hi.
  rewrite class_map_of_snoc, lookup_insert. case_decide as Hc.
  - subst c'. destruct (decide (i < length valids)%nat) as [Hlt|Hge].
    + rewrite lookup_app_l in Hi by done.
      exfalso. eapply Hc'; [by eapply list_elem_of_lookup_2|].
      apply list_elem_of_singleton; reflexivity.
    + apply lookup_lt_Some in Hi as Hlen. rewrite length_app in Hlen.
      simpl in Hlen. do 2 f_equal. lia.
  - destruct (decide (i < length valids)%nat) as [Hlt|Hge].
    + rewrite lookup_app_l in Hi by done. by apply IH.
    + rewrite lookup_app_r in Hi by lia.
      apply list_lookup_singleton_Some in Hi as [_ ->]. done.
Qed.

(** ** The passes, pixel by pixel *)

Section pixel.
Context (ign : Z).
Implicit Types (v c : Z) (voids valids : list Z) (cm : gmap Z Z).

Lemma void_px_ign voids : void_px ign voids ign = ign.
Proof.
  induction voids as [|c voids IH]; [done|]. unfold void_px in *; simpl.
  by case_bool_decide.
Qed.

Lemma void_px_notin voids v : v ∉ voids → void_px ign voids v = v.
Proof.
  revert v. induction voids as [|c voids IH]; intros v Hv; [done|].
  apply not_elem_of_cons in Hv as [Hne Hv]. unfold void_px in *; simpl.
  rewrite bool_decide_eq_false_2 by done. by apply IH.
Qed.

(** A void label ends as the ignore index, wherever it is in the list. *)
Lemma void_px_in voids v : v ∈ voids → void_px ign voids v = ign.
Proof.
  revert v. induction voids as [|c voids IH]; intros v Hv.
  - by apply elem_of_nil in Hv.
  - unfold void_px in *; simpl. case_bool_decide as Hc.
    + apply void_px_ign.
    + apply IH. apply elem_of_cons in Hv as [?|?]; [congruence|done].
Qed.

Lemma void_px_cases voids v :
  void_px ign voids v = v ∨ void_px ign voids v = ign.
Proof.
  destruct (decide (v ∈ voids)); [right; by apply void_px_in|].
  left; by apply void_px_notin.
Qed.

Lemma valid_px_app cm valids1 valids2 v :
  valid_px cm (valids1 ++ valids2) v =
  valid_px cm valids2 (valid_px cm valids1 v).
Proof. unfold valid_px. by rewrite foldl_app. Qed.

Lemma valid_px_cons cm valids c v :
  valid_px cm (c :: valids) v =
  valid_px cm valids (if bool_decide (v = c) then cm !!! c else v).
Proof. done. Qed.

Lemma valid_px_notin cm valids v : v ∉ valids → valid_px cm valids v = v.
Proof.
  revert v. induction valids as [|c valids IH]; intros v Hv; [done|].
  apply not_elem_of_cons in Hv as [Hne Hv]. unfold valid_px in *; simpl.
  rewrite bool_decide_eq_false_2 by done. by apply IH.
Qed.

(** After the valid-label pass a pixel holds its old value or a class
    index of the map. *)
Lemma valid_px_cases valids valids' v :
  valids' ⊆ valids →
  valid_px (class_map_of valids) valids' v = v ∨
  ∃ i : nat, valid_px (class_map_of valids) valids' v = Z.of_nat i ∧
             (i < length valids)%nat.
Proof.
  revert v. induction valids' as [|c valids' IH]; intros v Hsub; [by left|].
  assert (valids' ⊆ valids) as Hsub' by set_solver.
  unfold valid_px in *; simpl. case_bool_decide as Hc; [|by apply IH].
  right. destruct (class_map_of_elem valids c) as [x Hx]; [set_solver|].
  rewrite (lookup_total_correct _ _ _ Hx).
  apply class_map_of_Some in Hx as (i & -> & Hi%lookup_lt_Some).
  destruct (IH (Z.of_nat i) Hsub') as [->|?]; eauto.
Qed.
End pixel.

(** ** Running [encode_segmap] *)

Lemma kitti_with_constructed voids valids :
  constructed (kitti_with voids valids) voids valids.
Proof. done. Qed.

Section run.
Context (self : KITTI) (voids valids : list Z).
Context (Hself : constructed self voids valids).
Implicit Types (h : store) (a : ndarray) (mask : ref).

Lemma label_passes_run h mask a :
  h !! mask = Some a →
  label_passes self mask h =
  Some (tt, <[mask := px_map (label_px self) a]> h).
Proof using Hself.
  destruct Hself as (Hv & Hl & Hi & Hm). intros Ha.
  unfold label_passes. unfold mbind at 1, M_bind at 1.
  rewrite (void_loop_run _ _ _ _ _ Ha).
  erewrite valid_loop_run; [|apply lookup_insert_eq|].
  - by rewrite insert_insert_eq, px_map_compose.
  - rewrite Hm, Hl. apply Forall_forall. intros c Hc.
    by apply class_map_of_elem.
Qed.

(** The call overwrites the array object it is given and returns it. *)
Lemma encode_segmap_run h mask a :
  h !! mask = Some a →
  encode_segmap self mask h =
  Some (mask, <[mask := px_map (encode_px self) a]> h).
Proof using Hself.
  intros Ha. pose proof (label_passes_run h mask a Ha) as Hrun.
  unfold label_passes in Hrun. unfold mbind at 1, M_bind at 1 in Hrun.
  unfold encode_segmap. unfold mbind at 1, M_bind at 1.
  destruct (for_each (void_labels self) _ h) as [[[] h1]|]; [|done].
  unfold mbind at 1, M_bind at 1. rewrite Hrun.
  unfold mbind at 1, M_bind at 1.
  erewrite setitem_gt_run by apply lookup_insert_eq.
  by rewrite insert_insert_eq, px_map_compose.
Qed.

(** Whatever the labels, an encoded pixel is the ignore index, or at most
    18 and then the raw value itself or a class index. *)
Lemma encode_px_cases v :
  encode_px self v = 250 ∨
  (encode_px self v ≤ 18 ∧ (encode_px self v = v ∨ 0 ≤ encode_px self v)).
Proof using Hself.
  destruct Hself as (Hv & Hl & Hi & Hm). unfold encode_px, extra_px.
  rewrite Hi, Hm, Hl. case_bool_decide as Hgt; [by left|]. right.
  split; [lia|].
  destruct (valid_px_cases valids valids
              (void_px 250 (void_labels self) v)) as [Hw|(i & Hw & _)];
    [done| |right; lia].
  rewrite Hw in *. destruct (void_px_cases 250 (void_labels self) v) as [Hu|Hu];
    rewrite Hu in *; [by left | lia].
Qed.
End run.

(** ** The default labels *)

Lemma encode_px_constructed self voids valids v :
  constructed self voids valids →
  encode_px self v = encode_px (kitti_with voids valids) v.
Proof. intros (Hv & Hl & Hi & Hm). unfold encode_px. by rewrite Hv, Hl, Hi, Hm. Qed.

Lemma not_void_below v : v < -1 → v ∉ DEFAULT_VOID_LABELS.
Proof.
  intros Hv. unfold DEFAULT_VOID_LABELS.
  rewrite !not_elem_of_cons. repeat split; try lia. apply not_elem_of_nil.
Qed.

Lemma not_valid_below v : v < 7 → v ∉ DEFAULT_VALID_LABELS.
Proof.
  intros Hv. unfold DEFAULT_VALID_LABELS.
  rewrite !not_elem_of_cons. repeat split; try lia. apply not_elem_of_nil.
Qed.

(** No pass touches a pixel below -1. *)
Lemma encode_px_default_below v :
  v < -1 → encode_px kitti_default v = v.
Proof.
  intros Hv. unfold encode_px, kitti_default, kitti_with.
  cbn [void_labels valid_labels ignore_index class_map].
  rewrite void_px_notin by by apply not_void_below.
  rewrite valid_px_notin by (apply not_valid_below; lia).
  unfold extra_px. rewrite bool_decide_eq_false_2; [done | lia].
Qed.

Lemma encode_px_default_space v :
  in_label_space (encode_px kitti_default v) ↔ -1 ≤ v.
Proof.
  split.
  - intros Hs. destruct (decide (-1 ≤ v)) as [|Hlt]; [done|].
    rewrite encode_px_default_below in Hs by lia.
    unfold in_label_space in Hs. lia.
  - intros Hv. destruct (decide (v = -1)) as [->|Hne].
    + right. by vm_compute.
    + destruct (encode_px_cases kitti_default _ _
                  (kitti_with_constructed _ _) v) as [?|[? [?|?]]];
        unfold in_label_space; lia.
  Qed.

(** An encoded pixel is encoded to itself exactly when it is no class
    index: each of 0..18 is itself a raw void or valid label. *)
Lemma encode_px_default_twice v :
  encode_px kitti_default (encode_px kitti_default v) = encode_px kitti_default v
  ↔ encode_px kitti_default v = 250 ∨ encode_px kitti_default v < -1.
Proof.
  destruct (decide (v < -1)) as [Hlt|Hge].
  { rewrite !(encode_px_default_below v) by done. split; [intros _; by right | done]. }
  assert (-1 ≤ v) as Hw%encode_px_default_space by lia.
  destruct Hw as [Hw| ->]; [|split; [intros _; by left | intros _; by vm_compute]].
  set (w := encode_px kitti_default v) in *.
  assert (Hcases : Exists (λ d, w = d) (Z.of_nat <$> seq 0 19)).
  { apply Exists_exists. exists w. split; [|done].
    apply list_elem_of_fmap. exists (Z.to_nat w). split; [lia|].
    apply elem_of_seq. lia. }
  clearbody w. clear Hw. cbv [fmap list_fmap seq Z.of_nat Pos.of_succ_nat Pos.succ] in Hcases.
  repeat (apply Exists_cons in Hcases as [-> | Hcases];
          [split; [by vm_compute | intros [?|?]; lia] |]).
  by apply Exists_nil in Hcases.
Qed.

(** ** Labels beyond the nineteenth *)

(** With labels that are pairwise different, a pixel that holds a class
    index of position [m] or later keeps such an index through the rest of
    the valid-label loop. *)
Lemma valid_px_high valids pre suf (m : nat) w :
  valids = pre ++ suf → NoDup valids → (m ≤ length pre)%nat →
  Z.of_nat m ≤ w < Z.of_nat (length valids) →
  Z.of_nat m ≤ valid_px (class_map_of valids) suf w < Z.of_nat (length valids).
Proof.
  intros Hsplit Hnd. revert pre w Hsplit.
  induction suf as [|c suf IH]; intros pre w Hsplit Hm Hw; [done|].
  rewrite valid_px_cons.
  assert (valids !! length pre = Some c) as Hc.
  { rewrite Hsplit. by rewrite list_lookup_middle. }
  apply (IH (pre ++ [c])).
  - by rewrite <- app_assoc.
  - rewrite length_app. lia.
  - case_bool_decide; [|done].
    rewrite (lookup_total_correct _ _ _ (class_map_of_NoDup _ _ _ Hnd Hc)).
    apply lookup_lt_Some in Hc. lia.
Qed.

(** The raw label at position [k] of pairwise different valid labels, when
    it is no void label, leaves the two loops as a class index of position
    [k] or later. *)
Lemma label_px_high self voids valids (k : nat) c :
  constructed self voids valids → NoDup valids →
  valids !! k = Some c → c ∉ voids →
  Z.of_nat k ≤ label_px self c < Z.of_nat (length valids).
Proof.
  intros (Hv & Hl & Hi & Hm) Hnd Hk Hc. unfold label_px.
  rewrite Hv, Hl, Hm, void_px_notin by done.
  pose proof (take_drop_middle _ _ _ Hk) as Hsplit.
  apply lookup_lt_Some in Hk as Hlt.
  enough (valid_px (class_map_of valids) valids c =
          valid_px (class_map_of valids) (drop (S k) valids) (Z.of_nat k))
    as ->.
  { apply (valid_px_high valids (take k valids ++ [c])); [|done| |lia].
    - by rewrite <- app_assoc.
    - rewrite length_app, length_take. lia. }
  transitivity (valid_px (class_map_of valids)
                  (take k valids ++ c :: drop (S k) valids) c);
    [by rewrite Hsplit|].
  rewrite valid_px_app, (valid_px_notin _ (take k valids)).
  - rewrite valid_px_cons, bool_decide_eq_true_2 by done.
    by rewrite (lookup_total_correct _ _ _ (class_map_of_NoDup _ _ _ Hnd Hk)).
  - rewrite <- Hsplit in Hnd. apply NoDup_app in Hnd as (_ & Hnot & _).
    intros Hin. apply (Hnot _ Hin). apply elem_of_cons; by left.
Qed.

(** ** The train/validation split *)

Lemma filter_none {A} (P : A → Prop) `{∀ x, Decision (P x)} (l : list A) :
  Forall (λ x, ¬ P x) l → filter P l = [].
Proof.
  induction 1 as [|x l Hx _ IH]; [done|]. by rewrite filter_cons_False.
Qed.

Lemma filter_all {A} (P : A → Prop) `{∀ x, Decision (P x)} (l : list A) :
  Forall P l → filter P l = l.
Proof.
  induction 1 as [|x l Hx _ IH]; [done|]. rewrite filter_cons_True by done.
  by f_equal.
Qed.

(** The indices left when a sample is taken out of a population without
    repeats. *)
Lemma length_filter_not_sampled (idxs population : list nat) :
  idxs ⊆+ population → NoDup population →
  length (filter (λ idx, idx ∉ idxs) population) =
  (length population - length idxs)%nat.
Proof.
  intros [rest Hperm]%submseteq_Permutation Hnd.
  rewrite Hperm in Hnd. rewrite Hperm, filter_app, !length_app.
  apply NoDup_app in Hnd as (_ & Hnot & _).
  assert (filter (λ idx, idx ∉ idxs) idxs = []) as ->.
  { apply filter_none, Forall_forall. intros x Hx Hx'. by apply Hx'. }
  assert (filter (λ idx, idx ∉ idxs) rest = rest) as ->.
  { apply filter_all, Forall_forall. intros x Hx Hx'.
    by apply (Hnot x). }
  simpl. lia.
Qed.

Lemma mapM_lookup_Some {A} (l : list A) (idxs : list nat) :
  Forall (λ i, (i < length l)%nat) idxs →
  ∃ l', mapM (λ i, l !! i) idxs = Some l' ∧ length l' = length idxs.
Proof.
  intros Hidxs.
  destruct (mapM_is_Some_2 (λ i, l !! i) idxs) as [l' Hl'].
  - eapply Forall_impl; [exact Hidxs|]. intros i Hi; simpl.
    by apply lookup_lt_is_Some_2.
  - exists l'. split; [done|]. symmetry. by eapply length_mapM.
Qed.

#[local] Arguments path_join : simpl never.
#[local] Arguments get_filenames : simpl never.

Section split.
Context `{PyLibs}.
Context (Hsample : sample_contract).

(** The validation indices are the sample; the training indices are the
    rest of [range(n_items)]. *)
Lemma split_idxs_run (n_items : nat) :
  ∃ idxs,
    (∀ split, split ≠ "train" → split_idxs split n_items = Some idxs) ∧
    split_idxs "train" n_items =
      Some (filter (λ idx, idx ∉ idxs) (seq 0 n_items)) ∧
    length idxs = (n_items `div` 5)%nat ∧
    idxs ⊆+ seq 0 n_items.
Proof using Hsample.
  destruct (Hsample (Random 12345) (seq 0 n_items) (n_items `div` 5)%nat)
    as (idxs & g' & Hs & Hlen & Hsub).
  { rewrite length_seq. apply Nat.Div0.div_le_upper_bound. lia. }
  exists idxs. unfold split_idxs. rewrite Hs; simpl. repeat split; [|done..].
  intros split Hsplit. by rewrite bool_decide_eq_false_2.
Qed.

Lemma split_idxs_lengths (n_items : nat) :
  ∃ valid_idxs train_idxs,
    split_idxs "valid" n_items = Some valid_idxs ∧
    split_idxs "train" n_items = Some train_idxs ∧
    length valid_idxs = (n_items `div` 5)%nat ∧
    length train_idxs = (n_items - n_items `div` 5)%nat ∧
    Forall (λ i, (i < n_items)%nat) valid_idxs ∧
    Forall (λ i, (i < n_items)%nat) train_idxs.
Proof using Hsample.
  destruct (split_idxs_run n_items) as (idxs & Hv & Ht & Hlen & Hsub).
  eexists _, _. split; [by apply Hv|]. split; [exact Ht|].
  split; [done|]. split; [|split].
  - rewrite length_filter_not_sampled by (done || apply NoDup_seq).
    by rewrite length_seq, Hlen.
  - apply Forall_forall. intros i Hi.
    eapply elem_of_submseteq in Hi; [|done]. apply elem_of_seq in Hi. lia.
  - apply Forall_forall. intros i [_ Hi%elem_of_seq]%list_elem_of_filter. lia.
Qed.

(** With as many masks as images, [__init__] succeeds and keeps one file
    pair for each index of the split. *)
Lemma KITTI_init_run (w : World) (dp split : string) sz voids valids :
  length (get_filenames w (path_join dp "labelsTs")) =
  length (get_filenames w (path_join dp "imagesTr")) →
  ∃ idxs self,
    split_idxs split (length (get_filenames w (path_join dp "imagesTr")))
      = Some idxs ∧
    KITTI_init w dp split sz voids valids = Some self ∧
    KITTI_len self = length idxs ∧
    constructed self voids valids.
Proof using Hsample.
  intros Hmasks. set (n := length (get_filenames w (path_join dp "imagesTr"))).
  assert (∃ idxs, split_idxs split n = Some idxs ∧
                  Forall (λ i, (i < n)%nat) idxs) as (idxs & Hidxs & Hlt).
  { destruct (split_idxs_lengths n) as (vi & ti & Hv & Ht & _ & _ & Hvi & Hti).
    destruct (decide (split = "train")) as [->|Hne]; [by eauto|].
    destruct (split_idxs_run n) as (idxs & Hv' & _).
    rewrite (Hv' "valid") in Hv by done. injection Hv as ->.
    exists vi. split; [by apply Hv'|done]. }
  destruct (mapM_lookup_Some (get_filenames w (path_join dp "imagesTr")) idxs)
    as (imgs & Himgs & Hlen); [done|].
  destruct (mapM_lookup_Some (get_filenames w (path_join dp "labelsTs")) idxs)
    as (masks & Hmaskl & _); [by rewrite Hmasks|].
  eexists idxs, _. split; [done|]. unfold KITTI_init. fold n.
  rewrite Hidxs; simpl. rewrite Himgs; simpl. rewrite Hmaskl; simpl.
  by repeat split.
Qed.
End split.

Lemma toy_sample_contract : @sample_contract toy_libs.
Proof.
  intros g population k Hk. unfold sample; simpl. unfold toy_sample.
  rewrite decide_True by done. eexists _, _. split; [done|]. split.
  - rewrite length_take, length_rotate. lia.
  - etransitivity; [apply submseteq_take|].
    apply Permutation_submseteq. unfold rotate.
    rewrite Permutation_app_comm. by rewrite take_drop.
Qed.

(** * Part IV: the properties of the specification *)




(** C2.  For a data directory that lists a hundred images and a hundred
    masks, the split keeps 20 indices for validation and 80 for training
    (for [n] files, [n `div` 5] and the rest), and the datasets have these
    lengths.  The generator is a new object seeded with 12345, so the
    result is the same in every process that lists the same files,
    whatever the state of its global generator. *)
Theorem split_hundred_pairs `{PyLibs} (w : World) (dp : string)
    (sz : nat * nat) (voids valids : list Z) :
  sample_contract →
  length (get_filenames w (path_join dp "imagesTr")) = 100%nat →
  length (get_filenames w (path_join dp "labelsTs")) = 100%nat →
  (∃ valid_idxs train_idxs validset trainset,
     split_idxs "valid" 100 = Some valid_idxs ∧ length valid_idxs = 20%nat ∧
     split_idxs "train" 100 = Some train_idxs ∧ length train_idxs = 80%nat ∧
     KITTI_init w dp "valid" sz voids valids = Some validset ∧
     KITTI_len validset = 20%nat ∧
     KITTI_init w dp "train" sz voids valids = Some trainset ∧
     KITTI_len trainset = 80%nat) ∧
  (∀ n : nat, ∃ valid_idxs train_idxs,
     split_idxs "valid" n = Some valid_idxs ∧
     split_idxs "train" n = Some train_idxs ∧
     length valid_idxs = (n `div` 5)%nat ∧
     length train_idxs = (n - n `div` 5)%nat) ∧
  (∀ (w' : World) (split : string),
     (∀ pattern, glob w' pattern = glob w pattern) →
     KITTI_init w' dp split sz voids valids =
     KITTI_init w dp split sz voids valids).
Proof.
  intros Hsample Himgs Hmasks. split; [|split].
  - destruct (split_idxs_lengths Hsample 100)
      as (vi & ti & Hv & Ht & Hlv & Hlt & _).
    destruct (KITTI_init_run Hsample w dp "valid" sz voids valids)
      as (vi' & validset & Hv' & Hinit_v & Hlen_v & _);
      [by rewrite Himgs, Hmasks|].
    destruct (KITTI_init_run Hsample w dp "train" sz voids valids)
      as (ti' & trainset & Ht' & Hinit_t & Hlen_t & _);
      [by rewrite Himgs, Hmasks|].
    rewrite Himgs in Hv', Ht'.
    assert (vi' = vi) as -> by congruence.
    assert (ti' = ti) as -> by congruence.
    assert (length vi = 20%nat) as Hv20 by (by rewrite Hlv).
    assert (length ti = 80%nat) as Ht80 by (by rewrite Hlt).
    exists vi, ti, validset, trainset.
    repeat split; try done; congruence.
  - intros n. destruct (split_idxs_lengths Hsample n)
      as (vi & ti & Hv & Ht & Hlv & Hlt & _). by exists vi, ti.
  - intros w' split Hglob. unfold KITTI_init, get_filenames.
    by rewrite !Hglob.
Qed.

Lemma split_hundred_pairs_witness :
  (∃ valid_idxs train_idxs validset trainset,
     @split_idxs toy_libs "valid" 100 = Some valid_idxs ∧
     length valid_idxs = 20%nat ∧
     @split_idxs toy_libs "train" 100 = Some train_idxs ∧
     length train_idxs = 80%nat ∧
     @KITTI_init toy_libs toy_world "data_semantics" "valid" (1242%nat, 376%nat)
       DEFAULT_VOID_LABELS DEFAULT_VALID_LABELS = Some validset ∧
     KITTI_len validset = 20%nat ∧
     @KITTI_init toy_libs toy_world "data_semantics" "train" (1242%nat, 376%nat)
       DEFAULT_VOID_LABELS DEFAULT_VALID_LABELS = Some trainset ∧
     KITTI_len trainset = 80%nat) ∧
  (∀ n : nat, ∃ valid_idxs train_idxs,
     @split_idxs toy_libs "valid" n = Some valid_idxs ∧
     @split_idxs toy_libs "train" n = Some train_idxs ∧
     length valid_idxs = (n `div` 5)%nat ∧
     length train_idxs = (n - n `div` 5)%nat) ∧
  (∀ (w' : @World toy_libs) (split : string),
     (∀ pattern, glob w' pattern = glob toy_world pattern) →
     KITTI_init w' "data_semantics" split (1242%nat, 376%nat)
       DEFAULT_VOID_LABELS DEFAULT_VALID_LABELS =
     KITTI_init toy_world "data_semantics" split (1242%nat, 376%nat)
       DEFAULT_VOID_LABELS DEFAULT_VALID_LABELS).
Proof.
  apply (@split_hundred_pairs toy_libs toy_world "data_semantics"
           (1242%nat, 376%nat) DEFAULT_VOID_LABELS DEFAULT_VALID_LABELS).
  - apply toy_sample_contract.
  - reflexivity.
  - reflexivity.
Defined.

(** C3.  For every number of files, the training indices and the
    validation indices have no index in common, and together they are the
    indices 0, ..., n-1. *)
Theorem split_partition `{PyLibs} (n : nat) :
  sample_contract →
  ∃ valid_idxs train_idxs,
    split_idxs "valid" n = Some valid_idxs ∧
    split_idxs "train" n = Some train_idxs ∧
    (list_to_set train_idxs : gset nat) ## list_to_set valid_idxs ∧
    (list_to_set train_idxs ∪ list_to_set valid_idxs : gset nat) = set_seq 0 n.
Proof.
  intros Hsample.
  destruct (split_idxs_run Hsample n) as (idxs & Hv & Ht & _ & Hsub).
  eexists _, _. split; [by apply Hv|]. split; [exact Ht|]. split.
  - intros i [Hi _]%elem_of_list_to_set%list_elem_of_filter Hi'%elem_of_list_to_set.
    by apply Hi.
  - apply set_eq; intros i.
    rewrite elem_of_union, !elem_of_list_to_set, list_elem_of_filter.
    rewrite elem_of_set_seq, elem_of_seq. split.
    + intros [[_ Hi]|Hi]; [done|].
      eapply elem_of_submseteq in Hi; [|done]. by apply elem_of_seq in Hi.
    + intros Hi. destruct (decide (i ∈ idxs)); [by right|by left].
Qed.

Lemma split_partition_witness :
  ∃ valid_idxs train_idxs,
    @split_idxs toy_libs "valid" 10 = Some valid_idxs ∧
    @split_idxs toy_libs "train" 10 = Some train_idxs ∧
    (list_to_set train_idxs : gset nat) ## list_to_set valid_idxs ∧
    (list_to_set train_idxs ∪ list_to_set valid_idxs : gset nat) = set_seq 0 10.
Proof. apply (@split_partition toy_libs 10), toy_sample_contract. Defined.

(** C4 (as amended).  With the default labels, encoding an encoded mask
    again gives the same mask exactly when the encoded mask holds no class
    index at all, that is when each of its pixels is the ignore index or
    an untouched value below -1.  The ignore index is a fixed point of the
    encoding; no class index 0..18 is. *)
Theorem encode_segmap_twice self (h : store) (mask : nat) (a : ndarray) :
  constructed self DEFAULT_VOID_LABELS DEFAULT_VALID_LABELS →
  h !! mask = Some a →
  ∃ a1 a2,
    encode_segmap self mask h = Some (mask, <[mask:=a1]> h) ∧
    encode_segmap self mask (<[mask:=a1]> h) = Some (mask, <[mask:=a2]> h) ∧
    (a2 = a1 ↔ all_px (λ v, v = 250 ∨ v < -1) a1).
Proof.
  intros Hself Ha. eexists _, _. split; [by eapply encode_segmap_run|]. split.
  - erewrite encode_segmap_run; [|done|apply lookup_insert_eq].
    by rewrite insert_insert_eq.
  - rewrite px_map_compose, px_map_inj_on, all_px_map.
    apply Forall_iff; intros row. apply Forall_iff; intros v. simpl.
    rewrite !(encode_px_constructed _ _ _ _ Hself).
    apply encode_px_default_twice.
Qed.

Lemma encode_segmap_twice_witness :
  ∃ a1 a2,
    encode_segmap kitti_default 0%nat {[0%nat := [[2; 40]]]} =
      Some (0%nat, <[0%nat:=a1]> {[0%nat := [[2; 40]]]}) ∧
    encode_segmap kitti_default 0%nat (<[0%nat:=a1]> {[0%nat := [[2; 40]]]}) =
      Some (0%nat, <[0%nat:=a2]> {[0%nat := [[2; 40]]]}) ∧
    (a2 = a1 ↔ all_px (λ v, v = 250 ∨ v < -1) a1).
Proof.
  apply (encode_segmap_twice kitti_default
           {[0%nat := [[2; 40]]]} 0%nat [[2; 40]]).
  - by repeat split.
  - reflexivity.
Defined.

(** C4 as stated fails: raw label 7 is encoded as class 0, and 0 is a void
    label, which a second encoding turns into 250. *)
Lemma encode_segmap_not_idempotent :
  encode_segmap kitti_default 0%nat {[0%nat := [[7]]]} =
    Some (0%nat, {[0%nat := [[0]]]}) ∧
  encode_segmap kitti_default 0%nat {[0%nat := [[0]]]} =
    Some (0%nat, {[0%nat := [[250]]]}) ∧
  [[250]] ≠ [[0]].
Proof. split; [by vm_compute|]. split; [by vm_compute|done]. Qed.

(** C5 (as amended).  Whatever the labels, a pixel whose raw value is a
    void label ends as the ignore index, also when the value is a valid
    label too, as long as 250 is no valid label: the void-label loop runs
    first and overwrites the raw value, so the valid-label loop no longer
    finds it. *)
Theorem void_label_wins self voids valids (h : store) (mask : nat)
    (a : ndarray) (i j : nat) (v : Z) :
  constructed self voids valids →
  h !! mask = Some a →
  px_at a i j = Some v →
  v ∈ voids →
  250 ∉ valids →
  ∃ a', encode_segmap self mask h = Some (mask, <[mask:=a']> h) ∧
        px_at a' i j = Some 250.
Proof.
  intros Hself Ha Hv Hvoid Hvalid. eexists. split; [by eapply encode_segmap_run|].
  rewrite px_at_map, Hv; simpl. f_equal.
  destruct Hself as (Hvo & Hva & Hi & Hm). unfold encode_px.
  rewrite Hvo, Hva, Hi, void_px_in, valid_px_notin by done.
  done.
Qed.

Lemma void_label_wins_witness :
  ∃ a', encode_segmap (kitti_with [0; 7] [7; 8]) 0%nat {[0%nat := [[7; 8]]]} =
          Some (0%nat, <[0%nat:=a']> {[0%nat := [[7; 8]]]}) ∧
        px_at a' 0 0 = Some 250.
Proof.
  apply (void_label_wins (kitti_with [0; 7] [7; 8]) [0; 7] [7; 8] _ _
           [[7; 8]] 0%nat 0%nat 7).
  - by repeat split.
  - reflexivity.
  - reflexivity.
  - set_solver.
  - rewrite !not_elem_of_cons. repeat split; try lia. apply not_elem_of_nil.
Defined.

(** C5 as stated fails: with 7 both a void and a valid label (of class 0),
    a pixel 7 ends as 250, not as its class; the label 8, valid only, ends
    as class 1. *)
Lemma overlap_label_ignored :
  7 ∈ [0; 7] ∧ 7 ∈ [7; 8] ∧
  class_map (kitti_with [0; 7] [7; 8]) !! 7 = Some 0 ∧
  encode_segmap (kitti_with [0; 7] [7; 8]) 0%nat {[0%nat := [[7; 8]]]} =
    Some (0%nat, {[0%nat := [[250; 1]]]}).
Proof.
  split; [set_solver|]. split; [set_solver|]. split; by vm_compute.
Qed.

(** C6.  The default valid labels are 19 raw labels; with the default
    labels, [encode_segmap] turns a pixel 7 into class 0, a pixel 11 into
    class 2, and a pixel 2 (a void label) into the ignore index 250. *)
Theorem encode_segmap_default_examples self (h : store) (mask : nat)
    (a : ndarray) :
  constructed self DEFAULT_VOID_LABELS DEFAULT_VALID_LABELS →
  h !! mask = Some a →
  length DEFAULT_VALID_LABELS = 19%nat ∧ ignore_index self = 250 ∧
  ∃ a', encode_segmap self mask h = Some (mask, <[mask:=a']> h) ∧
        ∀ i j,
          (px_at a i j = Some 7 → px_at a' i j = Some 0) ∧
          (px_at a i j = Some 11 → px_at a' i j = Some 2) ∧
          (px_at a i j = Some 2 → px_at a' i j = Some 250).
Proof.
  intros Hself Ha. split; [done|]. split; [apply Hself|].
  eexists. split; [by eapply encode_segmap_run|].
  intros i j. rewrite px_at_map.
  repeat split; intros ->; simpl; f_equal;
    rewrite (encode_px_constructed _ _ _ _ Hself); by vm_compute.
Qed.

Lemma encode_segmap_default_examples_witness :
  length DEFAULT_VALID_LABELS = 19%nat ∧ ignore_index kitti_default = 250 ∧
  ∃ a', encode_segmap kitti_default 0%nat {[0%nat := [[7; 11; 2]]]} =
          Some (0%nat, <[0%nat:=a']> {[0%nat := [[7; 11; 2]]]}) ∧
        ∀ i j,
          (px_at [[7; 11; 2]] i j = Some 7 → px_at a' i j = Some 0) ∧
          (px_at [[7; 11; 2]] i j = Some 11 → px_at a' i j = Some 2) ∧
          (px_at [[7; 11; 2]] i j = Some 2 → px_at a' i j = Some 250).
Proof.
  apply (encode_segmap_default_examples kitti_default
           {[0%nat := [[7; 11; 2]]]} 0%nat [[7; 11; 2]]).
  - by repeat split.
  - reflexivity.
Defined.






(** * Part V: further properties of the code *)

(** ** Helper lemmas *)

Lemma shape_px_map f a : shape (px_map f a) = shape a.
Proof.
  unfold shape, px_map. rewrite <- list_fmap_compose.
  apply list_fmap_ext; intros _ row _; simpl. apply length_fmap.
Qed.

(** In increasing labels that are all at least [m], the label at a
    position is at least [m] plus the position. *)
Lemma sorted_label_ge (valids : list Z) :
  StronglySorted Z.lt valids →
  ∀ (m : Z) (j : nat) (x : Z),
    Forall (λ y, m ≤ y) valids → valids !! j = Some x → m + Z.of_nat j ≤ x.
Proof.
  induction 1 as [|y rest Hs IH Hall]; intros m j x Hm Hj; [done|].
  apply Forall_cons in Hm as [Hy _]. destruct j as [|j]; simpl in Hj.
  - injection Hj as <-. lia.
  - assert (m + 1 + Z.of_nat j ≤ x); [|lia]. apply IH; [|done].
    eapply Forall_impl; [exact Hall|]. intros z Hz; simpl in Hz. lia.
Qed.

Lemma sorted_label_ge_position (valids : list Z) (j : nat) x :
  Sorted Z.lt valids → Forall (λ x, 0 ≤ x) valids →
  valids !! j = Some x → Z.of_nat j ≤ x.
Proof.
  intros Hs%Sorted_StronglySorted Hpos Hj; [|apply _].
  pose proof (sorted_label_ge valids Hs 0 j x Hpos Hj). lia.
Qed.

Lemma sorted_labels_NoDup (valids : list Z) : Sorted Z.lt valids → NoDup valids.
Proof.
  intros Hs%Sorted_StronglySorted; [|apply _].
  induction Hs as [|y valids Hs IH Hall]; constructor; [|done].
  intros Hin. rewrite Forall_forall in Hall. specialize (Hall _ Hin). lia.
Qed.

(** With increasing non-negative valid labels, the label at position [i]
    leaves the valid-label loop as [i]: no later label equals [i]. *)
Lemma valid_px_sorted (valids : list Z) (i : nat) c :
  Sorted Z.lt valids → Forall (λ x, 0 ≤ x) valids → valids !! i = Some c →
  valid_px (class_map_of valids) valids c = Z.of_nat i.
Proof.
  intros Hs Hpos Hi. pose proof (sorted_labels_NoDup _ Hs) as Hnd.
  pose proof (take_drop_middle _ _ _ Hi) as Hsplit.
  transitivity (valid_px (class_map_of valids)
                  (take i valids ++ c :: drop (S i) valids) c);
    [by rewrite Hsplit|].
  rewrite valid_px_app, (valid_px_notin _ (take i valids)).
  - rewrite valid_px_cons, bool_decide_eq_true_2 by done.
    rewrite (lookup_total_correct _ _ _ (class_map_of_NoDup _ _ _ Hnd Hi)).
    apply valid_px_notin. intros [j Hj]%list_elem_of_lookup.
    rewrite lookup_drop in Hj.
    apply (sorted_label_ge_position _ _ _ Hs Hpos) in Hj. lia.
  - rewrite <- Hsplit in Hnd. apply NoDup_app in Hnd as (_ & Hnot & _).
    intros Hin. apply (Hnot _ Hin). apply elem_of_cons; by left.
Qed.

Lemma void_px_same_elements ign (voids voids' : list Z) v :
  (∀ x, x ∈ voids ↔ x ∈ voids') → void_px ign voids v = void_px ign voids' v.
Proof.
  intros Hsame. destruct (decide (v ∈ voids)) as [Hin|Hnot].
  - rewrite !void_px_in; [done| by apply Hsame | done].
  - rewrite !void_px_notin; [done| by rewrite <- Hsame | done].
Qed.

(** The class of a label is its last position among the valid labels. *)
Lemma class_map_of_last (valids : list Z) c x :
  class_map_of valids !! c = Some x ↔
  ∃ i : nat, x = Z.of_nat i ∧ valids !! i = Some c ∧
             ∀ j : nat, (i < j)%nat → valids !! j ≠ Some c.
Proof.
  revert x. induction valids as [|c' valids IH] using rev_ind; intros x.
  - unfold class_map_of, py_dict; simpl. rewrite lookup_empty.
    split; [done|]. by intros (i & _ & Hi & _).
  - rewrite class_map_of_snoc, lookup_insert. case_decide as Hc.
    + subst c'. split.
      * intros [= <-]. exists (length valids). split; [done|]. split.
        -- by rewrite lookup_app_r, Nat.sub_diag.
        -- intros j Hj Hlook. apply lookup_lt_Some in Hlook.
           rewrite length_app in Hlook. simpl in Hlook. lia.
      * intros (i & -> & Hi & Hlast). do 2 f_equal.
        apply lookup_lt_Some in Hi as Hlt. rewrite length_app in Hlt.
        simpl in Hlt. destruct (decide (i = length valids)) as [|Hne]; [done|].
        exfalso. apply (Hlast (length valids)); [lia|].
        by rewrite lookup_app_r, Nat.sub_diag.
    + rewrite IH. split.
      * intros (i & -> & Hi & Hlast). exists i. split; [done|]. split.
        -- by apply lookup_app_l_Some.
        -- intros j Hj Hlook. apply lookup_app_Some in Hlook as [Hl|[_ Hr]].
           ++ by apply (Hlast j).
           ++ apply list_lookup_singleton_Some in Hr as [_ ->]. done.
      * intros (i & -> & Hi & Hlast). exists i. split; [done|].
        apply lookup_app_Some in Hi as [Hl|[_ Hr]].
        -- split; [done|]. intros j Hj Hlook. apply (Hlast j Hj).
           by apply lookup_app_l_Some.
        -- apply list_lookup_singleton_Some in Hr as [_ ->]. done.
Qed.

(** ** The label remapper, whatever the labels *)

(** X1.  The class map that [__init__] builds has exactly the valid labels
    as keys, and the class of a label is its last position in
    [valid_labels]: when a label is listed twice, the later position
    wins. *)
Theorem class_map_last_position self voids valids (c x : Z) :
  constructed self voids valids →
  (class_map self !! c = Some x ↔
   ∃ i : nat, x = Z.of_nat i ∧ valids !! i = Some c ∧
              ∀ j : nat, (i < j)%nat → valids !! j ≠ Some c) ∧
  (is_Some (class_map self !! c) ↔ c ∈ valids).
Proof.
  intros (_ & _ & _ & ->). split; [apply class_map_of_last|]. split.
  - intros [y (i & _ & Hi & _)%class_map_of_last].
    by eapply list_elem_of_lookup_2.
  - apply class_map_of_elem.
Qed.

Lemma class_map_last_position_witness :
  (class_map (kitti_with [0] [7; 8; 7]) !! 7 = Some 2 ↔
   ∃ i : nat, 2 = Z.of_nat i ∧ [7; 8; 7] !! i = Some 7 ∧
              ∀ j : nat, (i < j)%nat → [7; 8; 7] !! j ≠ Some 7) ∧
  (is_Some (class_map (kitti_with [0] [7; 8; 7]) !! 7) ↔ 7 ∈ [7; 8; 7]).
Proof.
  apply (class_map_last_position (kitti_with [0] [7; 8; 7]) [0] [7; 8; 7] 7 2).
  by repeat split.
Defined.

(** X2.  [encode_segmap] keeps the shape of the mask: as many rows, and as
    many pixels in each row. *)
Theorem encode_segmap_shape self voids valids (h : store) (mask : nat)
    (a : ndarray) :
  constructed self voids valids →
  h !! mask = Some a →
  ∃ a', encode_segmap self mask h = Some (mask, <[mask:=a']> h) ∧
        shape a' = shape a.
Proof.
  intros Hself Ha. eexists. split; [by eapply encode_segmap_run|].
  apply shape_px_map.
Qed.

Lemma encode_segmap_shape_witness :
  ∃ a', encode_segmap kitti_default 0%nat {[0%nat := [[7; 8]; []; [300]]]} =
          Some (0%nat, <[0%nat:=a']> {[0%nat := [[7; 8]; []; [300]]]}) ∧
        shape a' = shape [[7; 8]; []; [300]].
Proof.
  apply (encode_segmap_shape kitti_default DEFAULT_VOID_LABELS
           DEFAULT_VALID_LABELS {[0%nat := [[7; 8]; []; [300]]]} 0%nat
           [[7; 8]; []; [300]]).
  - by repeat split.
  - reflexivity.
Defined.



(** X4.  With valid labels that are increasing and not negative, the raw
    label at position [i] that is no void label is encoded as class [i]
    when [i] is at most 18, and as 250 beyond: the loop never re-maps a
    class index it has just written. *)
Theorem encode_segmap_sorted_labels self voids valids (h : store)
    (mask : nat) (a : ndarray) (r col i : nat) (c : Z) :
  constructed self voids valids →
  h !! mask = Some a →
  Sorted Z.lt valids →
  Forall (λ x, 0 ≤ x) valids →
  valids !! i = Some c →
  c ∉ voids →
  px_at a r col = Some c →
  ∃ a', encode_segmap self mask h = Some (mask, <[mask:=a']> h) ∧
        px_at a' r col =
          Some (if bool_decide (i ≤ 18)%nat then Z.of_nat i else 250).
Proof.
  intros Hself Ha Hs Hpos Hi Hc Hpx. eexists.
  split; [by eapply encode_segmap_run|].
  rewrite px_at_map, Hpx; simpl. f_equal.
  destruct Hself as (Hvo & Hva & Hign & Hm). unfold encode_px.
  rewrite Hvo, Hva, Hign, Hm, void_px_notin by done.
  rewrite (valid_px_sorted valids i c) by done.
  unfold extra_px. repeat case_bool_decide; (done || lia).
Qed.

Lemma encode_segmap_sorted_labels_witness :
  ∃ a', encode_segmap kitti_default 0%nat {[0%nat := [[20; 255]; [0; 33]]]} =
          Some (0%nat, <[0%nat:=a']> {[0%nat := [[20; 255]; [0; 33]]]}) ∧
        px_at a' 1 1 = Some (if bool_decide (18 ≤ 18)%nat then 18 else 250).
Proof.
  apply (encode_segmap_sorted_labels kitti_default DEFAULT_VOID_LABELS
           DEFAULT_VALID_LABELS {[0%nat := [[20; 255]; [0; 33]]]} 0%nat
           [[20; 255]; [0; 33]] 1%nat 1%nat 18%nat 33).
  - by repeat split.
  - reflexivity.
  - repeat constructor; lia.
  - repeat constructor; lia.
  - reflexivity.
  - unfold DEFAULT_VOID_LABELS. rewrite !not_elem_of_cons.
    repeat split; try lia. apply not_elem_of_nil.
  - reflexivity.
Defined.

(** X5.  A raw value that is neither a void label nor a valid label is not
    rejected: it becomes 250 when it is above 18, and is returned
    unchanged otherwise, so an unlisted raw value up to 18 comes out like
    a class index. *)
Theorem encode_segmap_unlisted_value self voids valids (h : store)
    (mask : nat) (a : ndarray) (r col : nat) (v : Z) :
  constructed self voids valids →
  h !! mask = Some a →
  v ∉ voids →
  v ∉ valids →
  px_at a r col = Some v →
  ∃ a', encode_segmap self mask h = Some (mask, <[mask:=a']> h) ∧
        px_at a' r col = Some (if bool_decide (18 < v) then 250 else v).
Proof.
  intros Hself Ha Hvoid Hvalid Hpx. eexists.
  split; [by eapply encode_segmap_run|].
  rewrite px_at_map, Hpx; simpl. f_equal.
  destruct Hself as (Hvo & Hva & Hign & Hm). unfold encode_px.
  by rewrite Hvo, Hva, Hign, void_px_notin, valid_px_notin by done.
Qed.

Lemma encode_segmap_unlisted_value_witness :
  ∃ a', encode_segmap (kitti_with [0; 1] [7; 8]) 0%nat
          {[0%nat := [[5; 7; 40]]]} =
          Some (0%nat, <[0%nat:=a']> {[0%nat := [[5; 7; 40]]]}) ∧
        px_at a' 0 0 = Some (if bool_decide (18 < 5) then 250 else 5).
Proof.
  apply (encode_segmap_unlisted_value (kitti_with [0; 1] [7; 8]) [0; 1]
           [7; 8] {[0%nat := [[5; 7; 40]]]} 0%nat [[5; 7; 40]] 0%nat 0%nat 5).
  - by repeat split.
  - reflexivity.
  - rewrite !not_elem_of_cons. repeat split; try lia. apply not_elem_of_nil.
  - rewrite !not_elem_of_cons. repeat split; try lia. apply not_elem_of_nil.
  - reflexivity.
Defined.

(** X6.  The order of the void labels, and repeats among them, do not
    matter: two objects with the same valid labels and the same set of
    void labels encode every mask alike. *)
Theorem encode_segmap_void_order self self' voids voids' valids (h : store)
    (mask : nat) (a : ndarray) :
  constructed self voids valids →
  constructed self' voids' valids →
  (∀ x, x ∈ voids ↔ x ∈ voids') →
  h !! mask = Some a →
  is_Some (encode_segmap self mask h) ∧
  encode_segmap self' mask h = encode_segmap self mask h.
Proof.
  intros Hself Hself' Hsame Ha.
  rewrite (encode_segmap_run self voids valids Hself h mask a Ha).
  rewrite (encode_segmap_run self' voids' valids Hself' h mask a Ha).
  split; [by eauto|]. do 3 f_equal. apply px_map_ext; intros v.
  destruct Hself as (Hvo & Hva & Hign & Hm).
  destruct Hself' as (Hvo' & Hva' & Hign' & Hm'). unfold encode_px.
  rewrite Hvo, Hva, Hign, Hm, Hvo', Hva', Hign', Hm'.
  by rewrite (void_px_same_elements 250 voids' voids) by (intros x; by rewrite Hsame).
Qed.

Lemma encode_segmap_void_order_witness :
  is_Some (encode_segmap (kitti_with [0; 30; 5] [7; 8]) 0%nat
             {[0%nat := [[30; 7; 5]]]}) ∧
  encode_segmap (kitti_with [5; 0; 30; 0] [7; 8]) 0%nat
    {[0%nat := [[30; 7; 5]]]} =
  encode_segmap (kitti_with [0; 30; 5] [7; 8]) 0%nat {[0%nat := [[30; 7; 5]]]}.
Proof.
  apply (encode_segmap_void_order (kitti_with [0; 30; 5] [7; 8])
           (kitti_with [5; 0; 30; 0] [7; 8]) [0; 30; 5] [5; 0; 30; 0] [7; 8]
           {[0%nat := [[30; 7; 5]]]} 0%nat [[30; 7; 5]]).
  - by repeat split.
  - by repeat split.
  - intros x. rewrite !elem_of_cons, !elem_of_nil. tauto.
  - reflexivity.
Defined.

(** ** The datasets that [__init__] and [setup] build *)

Lemma lookup_all_take {A} (L l : list A) (n : nat) :
  Forall2 (λ i y, L !! i = Some y) (seq 0 n) l → l = take n L.
Proof.
  intros Hl. pose proof (Forall2_length _ _ _ Hl) as Hlen.
  rewrite length_seq in Hlen. apply list_eq; intros i.
  destruct (decide (i < n)%nat) as [Hlt|Hge].
  - rewrite lookup_take_lt by done.
    destruct (lookup_lt_is_Some_2 l i) as [y Hy]; [lia|].
    pose proof (Forall2_lookup_lr _ _ _ _ _ _ Hl (lookup_seq_lt 0 n i Hlt) Hy)
      as Hlook.
    simpl in Hlook. by rewrite Hy, Hlook.
  - rewrite lookup_take_ge by lia. apply lookup_ge_None. lia.
Qed.

Lemma lookup_all_seq {A} (L : list A) (n : nat) :
  (n ≤ length L)%nat →
  Forall2 (λ i y, L !! i = Some y) (seq 0 n) (take n L).
Proof.
  intros Hn. apply Forall2_same_length_lookup_2.
  - rewrite length_seq, length_take. lia.
  - intros i j y [-> Hi]%lookup_seq Hy. simpl.
    by rewrite lookup_take_lt in Hy.
Qed.

Lemma omap_lookup_Forall2 {A} (L l : list A) (idxs : list nat) :
  Forall2 (λ i y, L !! i = Some y) idxs l → omap (λ i, L !! i) idxs = l.
Proof.
  induction 1 as [|i y idxs l Hi _ IH]; [done|]. csimpl. rewrite Hi; simpl.
  by f_equal.
Qed.

(** Looking up a permutation of all positions gives a permutation of the
    list. *)
Lemma lookup_all_Permutation {A} (L l : list A) (idxs : list nat) :
  Forall2 (λ i y, L !! i = Some y) idxs l →
  idxs ≡ₚ seq 0 (length L) → l ≡ₚ L.
Proof.
  intros Hl Hperm.
  transitivity (omap (λ i, L !! i) idxs);
    [by rewrite (omap_lookup_Forall2 _ _ _ Hl)|].
  rewrite Hperm.
  rewrite (omap_lookup_Forall2 L (take (length L) L) (seq 0 (length L)))
    by by apply lookup_all_seq.
  by rewrite firstn_all.
Qed.

(** Looking up positions taken in increasing order gives a part of the
    list, in the order of the list. *)
Lemma lookup_filter_sublist {A} (P : nat → Prop) `{∀ i, Decision (P i)}
    (L l : list A) (n : nat) :
  (n ≤ length L)%nat →
  Forall2 (λ i y, L !! i = Some y) (filter P (seq 0 n)) l →
  l `sublist_of` take n L.
Proof.
  revert l. induction n as [|n IH]; intros l Hn Hl.
  - apply Forall2_nil_inv_l in Hl as ->. by rewrite take_0.
  - rewrite seq_S, filter_app in Hl.
    apply Forall2_app_inv_l in Hl as (l1 & l2 & Hl1 & Hl2 & ->).
    destruct (lookup_lt_is_Some_2 L n) as [x Hx]; [lia|].
    rewrite (take_S_r _ _ _ Hx). apply sublist_app; [apply IH; [lia|done]|].
    simpl in Hl2. rewrite filter_cons, filter_nil in Hl2.
    destruct (decide (P n)).
    + apply Forall2_cons_inv_l in Hl2 as (y & l2' & Hy & Hnil & ->).
      apply Forall2_nil_inv_l in Hnil as ->.
      assert (y = x) as -> by congruence. done.
    + apply Forall2_nil_inv_l in Hl2 as ->. apply sublist_nil_l.
Qed.

Lemma lookup_zip_Forall2 {A B} (L1 l1 : list A) (L2 l2 : list B)
    (idxs : list nat) :
  Forall2 (λ i y, L1 !! i = Some y) idxs l1 →
  Forall2 (λ i y, L2 !! i = Some y) idxs l2 →
  Forall2 (λ i p, zip L1 L2 !! i = Some p) idxs (zip l1 l2).
Proof.
  intros Hl1. revert l2.
  induction Hl1 as [|i y idxs l1 Hi _ IH]; intros l2 Hl2.
  - apply Forall2_nil_inv_l in Hl2 as ->. constructor.
  - apply Forall2_cons_inv_l in Hl2 as (z & l2' & Hz & Hl2' & ->).
    simpl. constructor; [|by apply IH].
    by rewrite lookup_zip_with, Hi, Hz.
Qed.

Lemma submseteq_NoDup_l {A} (l k : list A) : l ⊆+ k → NoDup k → NoDup l.
Proof.
  intros [rest Hperm]%submseteq_Permutation Hnd. rewrite Hperm in Hnd.
  by apply NoDup_app in Hnd as (? & _ & _).
Qed.

Section datasets.
Context `{PyLibs}.
Context (w : World) (dp : string).

(** What a constructed dataset holds. *)
Lemma KITTI_init_Some_inv split sz voids valids self :
  KITTI_init w dp split sz voids valids = Some self →
  ∃ idxs, split_idxs split (length (get_filenames w (path_join dp "imagesTr"))) = Some idxs ∧
          Forall2 (λ i y, (get_filenames w (path_join dp "imagesTr")) !! i = Some y) idxs (img_list self) ∧
          Forall2 (λ i y, (get_filenames w (path_join dp "labelsTs")) !! i = Some y) idxs (mask_list self) ∧
          constructed self voids valids.
Proof.
  unfold KITTI_init. intros Hinit.
  destruct (split_idxs split (length (get_filenames w (path_join dp "imagesTr")))) as [idxs|] eqn:Hidxs; [|done].
  simpl in Hinit.
  destruct (mapM (λ i, (get_filenames w (path_join dp "imagesTr")) !! i) idxs) as [l1|] eqn:Hl1; [|done].
  simpl in Hinit.
  destruct (mapM (λ i, (get_filenames w (path_join dp "labelsTs")) !! i) idxs) as [l2|] eqn:Hl2; [|done].
  simpl in Hinit. injection Hinit as <-. exists idxs. simpl.
  apply mapM_Some in Hl1, Hl2. by repeat split.
Qed.

(** [__init__] raises exactly when [sample] does or a kept index is beyond
    one of the two listings. *)
Lemma KITTI_init_is_Some split sz voids valids idxs :
  split_idxs split (length (get_filenames w (path_join dp "imagesTr"))) = Some idxs →
  is_Some (KITTI_init w dp split sz voids valids) ↔
  Forall (λ i, (i < length (get_filenames w (path_join dp "imagesTr")))%nat ∧ (i < length (get_filenames w (path_join dp "labelsTs")))%nat) idxs.
Proof.
  intros Hidxs. unfold KITTI_init. rewrite Hidxs; simpl. split.
  - intros [self Hself].
    destruct (mapM (λ i, (get_filenames w (path_join dp "imagesTr")) !! i) idxs) as [l1|] eqn:Hl1; [|done].
    simpl in Hself.
    destruct (mapM (λ i, (get_filenames w (path_join dp "labelsTs")) !! i) idxs) as [l2|] eqn:Hl2; [|done].
    assert (is_Some (mapM (λ i, (get_filenames w (path_join dp "imagesTr")) !! i) idxs)) as Hs1%mapM_is_Some by eauto.
    assert (is_Some (mapM (λ i, (get_filenames w (path_join dp "labelsTs")) !! i) idxs)) as Hs2%mapM_is_Some by eauto.
    rewrite Forall_forall in Hs1, Hs2. apply Forall_forall. intros i Hi.
    split; apply lookup_lt_is_Some; [by apply Hs1|by apply Hs2].
  - intros Hall.
    destruct (mapM_is_Some_2 (λ i, (get_filenames w (path_join dp "imagesTr")) !! i) idxs) as [l1 ->].
    { eapply Forall_impl; [exact Hall|]. intros i [Hi _]; simpl.
      by apply lookup_lt_is_Some. }
    destruct (mapM_is_Some_2 (λ i, (get_filenames w (path_join dp "labelsTs")) !! i) idxs) as [l2 ->].
    { eapply Forall_impl; [exact Hall|]. intros i [_ Hi]; simpl.
      by apply lookup_lt_is_Some. }
    simpl. by eauto.
Qed.

Context (Hsample : sample_contract).

(** The two index lists together are a rearrangement of [range(n)]. *)
Lemma split_idxs_Permutation (n : nat) :
  ∃ valid_idxs train_idxs,
    split_idxs "valid" n = Some valid_idxs ∧
    split_idxs "train" n = Some train_idxs ∧
    train_idxs = filter (λ idx, idx ∉ valid_idxs) (seq 0 n) ∧
    length valid_idxs = (n `div` 5)%nat ∧
    train_idxs ++ valid_idxs ≡ₚ seq 0 n.
Proof using Hsample.
  destruct (split_idxs_run Hsample n) as (idxs & Hv & Ht & Hlen & Hsub).
  exists idxs, (filter (λ idx, idx ∉ idxs) (seq 0 n)).
  split; [by apply Hv|]. split; [done|]. split; [done|]. split; [done|].
  etransitivity; [|apply (filter_app_complement (λ idx, idx ∉ idxs))].
  apply Permutation_app_head. apply NoDup_Permutation.
  - eapply submseteq_NoDup_l; [done|apply NoDup_seq].
  - apply NoDup_filter, NoDup_seq.
  - intros i. rewrite list_elem_of_filter. split.
    + intros Hi. split; [by intros Hn|]. by eapply elem_of_submseteq.
    + intros [Hi _]. by destruct (decide (i ∈ idxs)).
Qed.
End datasets.

Lemma split_idxs_in_range `{PyLibs} (split : string) (n : nat) :
  sample_contract →
  ∃ idxs, split_idxs split n = Some idxs ∧ Forall (λ i, (i < n)%nat) idxs.
Proof.
  intros Hsample.
  destruct (split_idxs_lengths Hsample n)
    as (vi & ti & Hv & Ht & _ & _ & Hvi & Hti).
  destruct (decide (split = "train")) as [->|Hne]; [by eauto|].
  destruct (split_idxs_run Hsample n) as (idxs & Hv' & _).
  rewrite (Hv' "valid") in Hv by done. injection Hv as ->.
  exists vi. split; [by apply Hv'|done].
Qed.

(** With at least as many masks as images, both datasets are built, from
    the index lists of the split. *)
Lemma setup_run `{PyLibs} (w : World) (dp : string) :
  sample_contract →
  (length (get_filenames w (path_join dp "imagesTr")) ≤
   length (get_filenames w (path_join dp "labelsTs")))%nat →
  ∃ valid_idxs trainset validset,
    KittiDataModule_setup w dp = Some (trainset, validset) ∧
    length valid_idxs =
      (length (get_filenames w (path_join dp "imagesTr")) `div` 5)%nat ∧
    filter (λ idx, idx ∉ valid_idxs)
      (seq 0 (length (get_filenames w (path_join dp "imagesTr"))))
      ++ valid_idxs
      ≡ₚ seq 0 (length (get_filenames w (path_join dp "imagesTr"))) ∧
    Forall2 (λ i p, zip (get_filenames w (path_join dp "imagesTr"))
                        (get_filenames w (path_join dp "labelsTs")) !! i
                    = Some p)
      (filter (λ idx, idx ∉ valid_idxs)
         (seq 0 (length (get_filenames w (path_join dp "imagesTr")))))
      (file_pairs trainset) ∧
    Forall2 (λ i p, zip (get_filenames w (path_join dp "imagesTr"))
                        (get_filenames w (path_join dp "labelsTs")) !! i
                    = Some p)
      valid_idxs (file_pairs validset) ∧
    length (img_list trainset) = length (mask_list trainset) ∧
    length (img_list validset) = length (mask_list validset).
Proof.
  intros Hsample Hlen.
  set (imgs := get_filenames w (path_join dp "imagesTr")) in *.
  set (masks := get_filenames w (path_join dp "labelsTs")) in *.
  destruct (split_idxs_Permutation Hsample (length imgs))
    as (vi & ti & Hv & Ht & -> & Hlv & Hperm).
  assert (∀ split idxs, split_idxs split (length imgs) = Some idxs →
            idxs ⊆ seq 0 (length imgs) →
            ∃ self, KITTI_init w dp split (1242%nat, 376%nat)
                      DEFAULT_VOID_LABELS DEFAULT_VALID_LABELS = Some self ∧
                    Forall2 (λ i p, zip imgs masks !! i = Some p) idxs
                      (file_pairs self) ∧
                    length (img_list self) = length (mask_list self))
    as Hinit.
  { intros split idxs Hidxs Hsub.
    destruct (proj2 (KITTI_init_is_Some w dp split (1242%nat, 376%nat)
                       DEFAULT_VOID_LABELS DEFAULT_VALID_LABELS idxs Hidxs))
      as [self Hself].
    { apply Forall_forall. intros i Hi%Hsub%elem_of_seq. fold imgs masks. lia. }
    exists self. split; [done|].
    apply KITTI_init_Some_inv in Hself as (idxs' & Hidxs' & Hl1 & Hl2 & _).
    fold imgs masks in Hidxs', Hl1, Hl2.
    assert (idxs' = idxs) as -> by congruence.
    split; [by apply lookup_zip_Forall2|].
    apply Forall2_length in Hl1, Hl2. congruence. }
  destruct (Hinit "train" _ Ht) as (trainset & Htrain & Hpt & Hlt).
  { intros i [_ Hi]%list_elem_of_filter. done. }
  destruct (Hinit "valid" _ Hv) as (validset & Hvalid & Hpv & Hlvv).
  { intros i Hi. rewrite <- Hperm. apply elem_of_app. by right. }
  exists vi, trainset, validset. unfold KittiDataModule_setup.
  rewrite Htrain; simpl. rewrite Hvalid; simpl. by repeat split.
Qed.

(** X7.  When [setup] has at least as many masks as images, it builds both
    datasets and no file pair is lost or used twice: the image/mask pairs
    of the training set followed by those of the validation set are a
    rearrangement of the listed pairs, each image with the mask listed at
    the same position; so the two lengths add up to the number of images,
    and masks listed beyond the last image are dropped. *)
Theorem setup_partitions_pairs `{PyLibs} (w : World) (dp : string) :
  sample_contract →
  (length (get_filenames w (path_join dp "imagesTr")) ≤
   length (get_filenames w (path_join dp "labelsTs")))%nat →
  ∃ trainset validset,
    KittiDataModule_setup w dp = Some (trainset, validset) ∧
    file_pairs trainset ++ file_pairs validset ≡ₚ
      zip (get_filenames w (path_join dp "imagesTr"))
          (get_filenames w (path_join dp "labelsTs")) ∧
    (KITTI_len trainset + KITTI_len validset)%nat =
      length (get_filenames w (path_join dp "imagesTr")).
Proof.
  intros Hsample Hlen.
  destruct (setup_run w dp Hsample Hlen)
    as (vi & trainset & validset & Hsetup & _ & Hperm & Hpt & Hpv & Hlt & Hlv).
  exists trainset, validset. split; [done|].
  assert (file_pairs trainset ++ file_pairs validset ≡ₚ
          zip (get_filenames w (path_join dp "imagesTr"))
              (get_filenames w (path_join dp "labelsTs"))) as Hpairs.
  { eapply lookup_all_Permutation; [by apply Forall2_app|].
    rewrite Hperm, length_zip, Nat.min_l by done. done. }
  split; [done|]. apply Permutation_length in Hpairs.
  unfold file_pairs in Hpairs.
  rewrite length_app, !length_zip in Hpairs. unfold KITTI_len. lia.
Qed.

Lemma setup_partitions_pairs_witness :
  ∃ trainset validset,
    @KittiDataModule_setup toy_libs toy_world "data_semantics" =
      Some (trainset, validset) ∧
    file_pairs trainset ++ file_pairs validset ≡ₚ
      zip (get_filenames toy_world (path_join "data_semantics" "imagesTr"))
          (get_filenames toy_world (path_join "data_semantics" "labelsTs")) ∧
    (KITTI_len trainset + KITTI_len validset)%nat =
      length (get_filenames toy_world (path_join "data_semantics" "imagesTr")).
Proof.
  apply (@setup_partitions_pairs toy_libs toy_world "data_semantics").
  - apply toy_sample_contract.
  - vm_compute. lia.
Defined.

(** X8.  With distinct image files, no image of the training set is an
    image of the validation set. *)
Theorem setup_no_leak `{PyLibs} (w : World) (dp : string) :
  sample_contract →
  (length (get_filenames w (path_join dp "imagesTr")) ≤
   length (get_filenames w (path_join dp "labelsTs")))%nat →
  NoDup (get_filenames w (path_join dp "imagesTr")) →
  ∃ trainset validset,
    KittiDataModule_setup w dp = Some (trainset, validset) ∧
    ∀ file, file ∈ img_list trainset → file ∉ img_list validset.
Proof.
  intros Hsample Hlen Hnd.
  destruct (setup_run w dp Hsample Hlen)
    as (vi & trainset & validset & Hsetup & _ & Hperm & Hpt & Hpv & Hlt & Hlv).
  exists trainset, validset. split; [done|].
  assert (img_list trainset ++ img_list validset ≡ₚ
          get_filenames w (path_join dp "imagesTr")) as Himgs.
  { assert (fst <$> (file_pairs trainset ++ file_pairs validset) ≡ₚ
            fst <$> zip (get_filenames w (path_join dp "imagesTr"))
                        (get_filenames w (path_join dp "labelsTs"))) as Hfst.
    { apply fmap_Permutation. eapply lookup_all_Permutation;
        [by apply Forall2_app|].
      rewrite Hperm, length_zip, Nat.min_l by done. done. }
    rewrite fmap_app in Hfst. unfold file_pairs in Hfst.
    rewrite !fst_zip in Hfst by lia. done. }
  rewrite <- Himgs in Hnd. apply NoDup_app in Hnd as (_ & Hnot & _). done.
Qed.

Lemma setup_no_leak_witness :
  ∃ trainset validset,
    @KittiDataModule_setup toy_libs toy_world "data_semantics" =
      Some (trainset, validset) ∧
    ∀ file, file ∈ img_list trainset → file ∉ img_list validset.
Proof.
  apply (@setup_no_leak toy_libs toy_world "data_semantics").
  - apply toy_sample_contract.
  - vm_compute. lia.
  - apply (bool_decide_unpack _). by vm_compute.
Defined.

(** X9.  [__init__] raises ([IndexError]) exactly when one of the indices
    it keeps for its split has no mask, that is when the index is at or
    beyond the number of listed masks. *)
Theorem init_fails_on_missing_mask `{PyLibs} (w : World) (dp split : string)
    (sz : nat * nat) (voids valids : list Z) :
  sample_contract →
  ∃ idxs,
    split_idxs split (length (get_filenames w (path_join dp "imagesTr")))
      = Some idxs ∧
    (KITTI_init w dp split sz voids valids = None ↔
     ∃ i, i ∈ idxs ∧
          (length (get_filenames w (path_join dp "labelsTs")) ≤ i)%nat).
Proof.
  intros Hsample.
  destruct (split_idxs_in_range split
              (length (get_filenames w (path_join dp "imagesTr"))) Hsample)
    as (idxs & Hidxs & Hrange).
  exists idxs. split; [done|].
  pose proof (KITTI_init_is_Some w dp split sz voids valids idxs Hidxs) as Hiff.
  rewrite Forall_forall in Hrange. split.
  - intros Hnone.
    destruct (decide (Forall (λ i, (i < length (get_filenames w
                (path_join dp "labelsTs")))%nat) idxs)) as [Hall|Hnot].
    + exfalso. destruct (proj2 Hiff) as [self Hself]; [|congruence].
      rewrite Forall_forall in Hall. apply Forall_forall. intros i Hi.
      split; [by apply Hrange|by apply Hall].
    + apply not_Forall_Exists in Hnot; [|apply _].
      apply Exists_exists in Hnot as (i & Hi & Hlt). exists i.
      split; [done|]. simpl in Hlt. lia.
  - intros (i & Hi & Hge). apply eq_None_not_Some. intros Hsome%Hiff.
    rewrite Forall_forall in Hsome. specialize (Hsome i Hi). lia.
Qed.

Lemma init_fails_on_missing_mask_witness :
  ∃ idxs,
    @split_idxs toy_libs "train"
      (length (get_filenames toy_world_short
                 (path_join "data_semantics" "imagesTr"))) = Some idxs ∧
    (KITTI_init toy_world_short "data_semantics" "train" (1242%nat, 376%nat)
       DEFAULT_VOID_LABELS DEFAULT_VALID_LABELS = None ↔
     ∃ i, i ∈ idxs ∧
          (length (get_filenames toy_world_short
                     (path_join "data_semantics" "labelsTs")) ≤ i)%nat).
Proof.
  apply (@init_fails_on_missing_mask toy_libs toy_world_short "data_semantics"
           "train" (1242%nat, 376%nat) DEFAULT_VOID_LABELS DEFAULT_VALID_LABELS).
  apply toy_sample_contract.
Defined.

(** X10.  [setup] raises exactly when there are fewer masks than images:
    the last image then belongs to one of the two splits and has no mask.
    With more masks than images it does not raise. *)
Theorem setup_fails_iff_fewer_masks `{PyLibs} (w : World) (dp : string) :
  sample_contract →
  KittiDataModule_setup w dp = None ↔
  (length (get_filenames w (path_join dp "labelsTs")) <
   length (get_filenames w (path_join dp "imagesTr")))%nat.
Proof.
  intros Hsample. split.
  - intros Hnone.
    destruct (decide (length (get_filenames w (path_join dp "imagesTr")) ≤
                      length (get_filenames w (path_join dp "labelsTs")))%nat)
      as [Hle|Hgt]; [|lia].
    destruct (setup_run w dp Hsample Hle) as (? & ? & ? & Hsome & _).
    congruence.
  - intros Hlt.
    set (n := length (get_filenames w (path_join dp "imagesTr"))) in *.
    destruct (split_idxs_Permutation Hsample n)
      as (vi & ti & Hv & Ht & _ & _ & Hperm).
    assert ((n - 1)%nat ∈ ti ++ vi) as Hlast.
    { rewrite Hperm. apply elem_of_seq. lia. }
    pose proof (KITTI_init_is_Some w dp "train" (1242%nat, 376%nat)
                  DEFAULT_VOID_LABELS DEFAULT_VALID_LABELS ti Ht) as Htrain.
    pose proof (KITTI_init_is_Some w dp "valid" (1242%nat, 376%nat)
                  DEFAULT_VOID_LABELS DEFAULT_VALID_LABELS vi Hv) as Hvalid.
    unfold KittiDataModule_setup.
    destruct (KITTI_init w dp "train" _ _ _) as [trainset|]; [|done]. simpl.
    destruct (KITTI_init w dp "valid" _ _ _) as [validset|]; [|done]. exfalso.
    assert (is_Some (Some trainset)) as Ht'%Htrain by eauto.
    assert (is_Some (Some validset)) as Hv'%Hvalid by eauto.
    rewrite Forall_forall in Ht', Hv'.
    apply elem_of_app in Hlast as [Hin|Hin];
      [specialize (Ht' _ Hin)|specialize (Hv' _ Hin)]; lia.
Qed.

Lemma setup_fails_iff_fewer_masks_witness :
  @KittiDataModule_setup toy_libs toy_world_short "data_semantics" = None ↔
  (length (get_filenames toy_world_short
             (path_join "data_semantics" "labelsTs")) <
   length (get_filenames toy_world_short
             (path_join "data_semantics" "imagesTr")))%nat.
Proof.
  apply (@setup_fails_iff_fewer_masks toy_libs toy_world_short "data_semantics").
  apply toy_sample_contract.
Defined.

(** X11.  With fewer than five images the validation set is empty and the
    training set holds every image, in the listed order, with the mask
    listed at the same position. *)
Theorem init_few_files `{PyLibs} (w : World) (dp : string) (sz : nat * nat)
    (voids valids : list Z) :
  sample_contract →
  (length (get_filenames w (path_join dp "imagesTr")) < 5)%nat →
  (length (get_filenames w (path_join dp "imagesTr")) ≤
   length (get_filenames w (path_join dp "labelsTs")))%nat →
  ∃ trainset validset,
    KITTI_init w dp "train" sz voids valids = Some trainset ∧
    KITTI_init w dp "valid" sz voids valids = Some validset ∧
    KITTI_len validset = 0%nat ∧
    img_list trainset = get_filenames w (path_join dp "imagesTr") ∧
    mask_list trainset =
      take (length (get_filenames w (path_join dp "imagesTr")))
           (get_filenames w (path_join dp "labelsTs")).
Proof.
  intros Hsample Hfew Hlen.
  set (imgs := get_filenames w (path_join dp "imagesTr")) in *.
  set (masks := get_filenames w (path_join dp "labelsTs")) in *.
  destruct (split_idxs_Permutation Hsample (length imgs))
    as (vi & ti & Hv & Ht & -> & Hlv & _).
  rewrite Nat.div_small in Hlv by done.
  apply nil_length_inv in Hlv as ->.
  rewrite filter_all in Ht by (apply Forall_forall; intros i _; apply not_elem_of_nil).
  destruct (proj2 (KITTI_init_is_Some w dp "train" sz voids valids _ Ht))
    as [trainset Htrain].
  { apply Forall_forall. intros i Hi%elem_of_seq. fold imgs masks. lia. }
  destruct (proj2 (KITTI_init_is_Some w dp "valid" sz voids valids _ Hv))
    as [validset Hvalid]; [constructor|].
  exists trainset, validset. split; [done|]. split; [done|].
  apply KITTI_init_Some_inv in Htrain as (ti & Ht' & Hl1 & Hl2 & _).
  apply KITTI_init_Some_inv in Hvalid as (vi & Hv' & Hl1' & _).
  fold imgs masks in Ht', Hv', Hl1, Hl2, Hl1'.
  assert (ti = seq 0 (length imgs)) as -> by congruence.
  assert (vi = []) as -> by congruence.
  split; [|split].
  - unfold KITTI_len. by apply Forall2_nil_inv_l in Hl1' as ->.
  - apply lookup_all_take in Hl1. by rewrite firstn_all in Hl1.
  - by apply lookup_all_take in Hl2.
Qed.

Lemma init_few_files_witness :
  ∃ trainset validset,
    @KITTI_init toy_libs toy_world_small "data_semantics" "train"
      (1242%nat, 376%nat) DEFAULT_VOID_LABELS DEFAULT_VALID_LABELS
      = Some trainset ∧
    @KITTI_init toy_libs toy_world_small "data_semantics" "valid"
      (1242%nat, 376%nat) DEFAULT_VOID_LABELS DEFAULT_VALID_LABELS
      = Some validset ∧
    KITTI_len validset = 0%nat ∧
    img_list trainset =
      get_filenames toy_world_small (path_join "data_semantics" "imagesTr") ∧
    mask_list trainset =
      take (length (get_filenames toy_world_small
                      (path_join "data_semantics" "imagesTr")))
           (get_filenames toy_world_small
              (path_join "data_semantics" "labelsTs")).
Proof.
  apply (@init_few_files toy_libs toy_world_small "data_semantics"
           (1242%nat, 376%nat) DEFAULT_VOID_LABELS DEFAULT_VALID_LABELS).
  - apply toy_sample_contract.
  - vm_compute. lia.
  - vm_compute. lia.
Defined.

(** X12.  The training set keeps the listed order: its image/mask pairs
    are the listed pairs with the validation pairs left out, none moved. *)
Theorem train_pairs_in_listing_order `{PyLibs} (w : World) (dp : string) :
  sample_contract →
  (length (get_filenames w (path_join dp "imagesTr")) ≤
   length (get_filenames w (path_join dp "labelsTs")))%nat →
  ∃ trainset validset,
    KittiDataModule_setup w dp = Some (trainset, validset) ∧
    file_pairs trainset `sublist_of`
      zip (get_filenames w (path_join dp "imagesTr"))
          (get_filenames w (path_join dp "labelsTs")).
Proof.
  intros Hsample Hlen.
  destruct (setup_run w dp Hsample Hlen)
    as (vi & trainset & validset & Hsetup & _ & _ & Hpt & _).
  exists trainset, validset. split; [done|].
  apply lookup_filter_sublist in Hpt; [|by rewrite length_zip, Nat.min_l].
  rewrite firstn_all2 in Hpt; [done|]. rewrite length_zip. lia.
Qed.

Lemma train_pairs_in_listing_order_witness :
  ∃ trainset validset,
    @KittiDataModule_setup toy_libs toy_world "data_semantics" =
      Some (trainset, validset) ∧
    file_pairs trainset `sublist_of`
      zip (get_filenames toy_world (path_join "data_semantics" "imagesTr"))
          (get_filenames toy_world (path_join "data_semantics" "labelsTs")).
Proof.
  apply (@train_pairs_in_listing_order toy_libs toy_world "data_semantics").
  - apply toy_sample_contract.
  - vm_compute. lia.
Defined.

(** ** The sample loader *)

Lemma py_index_is_Some {A} (l : list A) (i : Z) :
  is_Some (py_index l i) ↔ - Z.of_nat (length l) ≤ i < Z.of_nat (length l).
Proof.
  unfold py_index. repeat case_bool_decide; rewrite ?lookup_lt_is_Some.
  - lia.
  - lia.
  - split; [by intros [? ?]|lia].
Qed.

Section loader.
Context `{PILLib}.
Context (self : KITTI) (voids valids : list Z).
Context (Hself : constructed self voids valids).
Context (transform : option (tensor → tensor)).

(** A call that finds and opens its two files makes one new array object,
    the encoded mask, and returns it with the image data. *)
Lemma KITTI_getitem_run (idx : Z) (h : store) img_file mask_file img mask :
  py_index (img_list self) idx = Some img_file →
  Image_open img_file = Some img →
  py_index (mask_list self) idx = Some mask_file →
  Image_open mask_file = Some mask →
  KITTI_getitem self transform idx h =
  Some ((match transform with
         | Some t => t (np_array_img (Image_resize img (img_size self)))
         | None => np_array_img (Image_resize img (img_size self))
         end,
         fresh (dom h)),
        <[fresh (dom h) :=
            px_map (encode_px self)
              (np_array_mask
                 (Image_resize (Image_convert mask "L") (img_size self)))]> h).
Proof using Hself.
  intros Hf1 Ho1 Hf2 Ho2. unfold KITTI_getitem.
  unfold mbind at 1, M_bind at 1, lift at 1. rewrite Hf1.
  unfold mbind at 1, M_bind at 1, lift at 1. rewrite Ho1.
  unfold mbind at 1, M_bind at 1, lift at 1. rewrite Hf2.
  unfold mbind at 1, M_bind at 1, lift at 1. rewrite Ho2.
  unfold mbind at 1, M_bind at 1, np_array.
  unfold mbind at 1, M_bind at 1.
  erewrite (encode_segmap_run self voids valids Hself)
    by apply lookup_insert_eq.
  by rewrite insert_insert_eq.
Qed.

(** A call that returns has found and opened its two files. *)
Lemma KITTI_getitem_Some_inv (idx : Z) (h : store) :
  is_Some (KITTI_getitem self transform idx h) →
  ∃ img_file mask_file img mask,
    py_index (img_list self) idx = Some img_file ∧
    Image_open img_file = Some img ∧
    py_index (mask_list self) idx = Some mask_file ∧
    Image_open mask_file = Some mask.
Proof.
  unfold KITTI_getitem.
  unfold mbind at 1, M_bind at 1, lift at 1.
  destruct (py_index (img_list self) idx) as [f1|] eqn:Hf1; [|by intros [? ?]].
  unfold mbind at 1, M_bind at 1, lift at 1.
  destruct (Image_open f1) as [im|] eqn:Ho1; [|by intros [? ?]].
  unfold mbind at 1, M_bind at 1, lift at 1.
  destruct (py_index (mask_list self) idx) as [f2|] eqn:Hf2;
    [|by intros [? ?]].
  unfold mbind at 1, M_bind at 1, lift at 1.
  destruct (Image_open f2) as [m|] eqn:Ho2; [|by intros [? ?]].
  intros _. exists f1, f2, im, m. by repeat split.
Qed.
End loader.




Lemma toy_pil_eight_bits (im : @Image toy_pil) (size : nat * nat) :
  all_px (λ v, 0 ≤ v ≤ 255)
    (@np_array_mask toy_pil
       (@Image_resize toy_pil (@Image_convert toy_pil im "L") size)).
Proof.
  simpl. apply all_px_map, Forall_forall. intros row _.
  apply Forall_forall. intros v _. simpl.
  pose proof (Z.mod_pos_bound v 256). lia.
Qed.






(** X17.  Every dataset that [__init__] returns, for any split and
    whatever [sample] does, has as many masks as images, pairs each image
    with the mask listed at the same position of the directory listing,
    and has the label attributes set from its arguments, with the ignore
    index 250. *)
Theorem init_keeps_pairs_aligned `{PyLibs} (w : World) (dp split : string)
    (sz : nat * nat) (voids valids : list Z) (self : KITTI) :
  KITTI_init w dp split sz voids valids = Some self →
  length (mask_list self) = length (img_list self) ∧
  (∀ pair, pair ∈ file_pairs self →
     ∃ i : nat,
       get_filenames w (path_join dp "imagesTr") !! i = Some pair.1 ∧
       get_filenames w (path_join dp "labelsTs") !! i = Some pair.2) ∧
  constructed self voids valids.
Proof.
  intros (idxs & _ & Hl1 & Hl2 & Hc)%KITTI_init_Some_inv.
  split; [|split; [|done]].
  - apply Forall2_length in Hl1, Hl2. congruence.
  - intros pair [k Hk]%list_elem_of_lookup.
    pose proof (lookup_zip_Forall2 _ _ _ _ _ Hl1 Hl2) as Hzip.
    destruct (Forall2_lookup_r _ _ _ _ _ Hzip Hk) as (i & _ & Hi).
    exists i. rewrite lookup_zip_with in Hi.
    destruct (get_filenames w (path_join dp "imagesTr") !! i) as [x|];
      [|done]. simpl in Hi.
    destruct (get_filenames w (path_join dp "labelsTs") !! i) as [y|];
      [|done]. simpl in Hi. by injection Hi as <-.
Qed.

Lemma init_keeps_pairs_aligned_witness :
  length (mask_list toy_trainset) = length (img_list toy_trainset) ∧
  (∀ pair, pair ∈ file_pairs toy_trainset →
     ∃ i : nat,
       get_filenames toy_world_small (path_join "data_semantics" "imagesTr")
         !! i = Some pair.1 ∧
       get_filenames toy_world_small (path_join "data_semantics" "labelsTs")
         !! i = Some pair.2) ∧
  constructed toy_trainset DEFAULT_VOID_LABELS DEFAULT_VALID_LABELS.
Proof.
  apply (@init_keeps_pairs_aligned toy_libs toy_world_small "data_semantics"
           "train" (1242%nat, 376%nat) DEFAULT_VOID_LABELS
           DEFAULT_VALID_LABELS toy_trainset).
  by vm_compute.
Defined.
